(** * Simon's algorithm (grove.alpha.simon.simon): the classical recovery engine

    A shallow embedding of the class [Simon] of [simon.py]: the incremental
    GF(2) basis kept in [_dict_of_linearly_indep_bit_vectors], its completion
    with the unit vector of the missing provenance, back substitution, the
    check of the mask against the truth table and the driver [find_mask].

    Python values are modelled as follows.
    - a Python [int] is a [Z]; a bit vector ([z.tolist()]) is a [list Z];
    - a bit string (a key or a value of the truth table) is a [string];
    - the truth table is a Python [dict] read in insertion order
      ([list(d.keys())[0]], [d.items()]): an association list;
    - [_dict_of_linearly_indep_bit_vectors] is only ever read by key, by
      [len] and through [sorted]: a [gmap nat (list Z)];
    - an exception is a value of [exn]; attribute updates made before a
      [raise] persist, so a method is a function
      [world -> outcome A * world];
    - the connection [cxn] is an opaque, possibly randomised source: its
      answers are the sequence [cxn 0], [cxn 1], ... and the world counts the
      calls made so far. *)

From Stdlib Require Import ZArith Lia Ascii String.
From stdpp Require Import gmap strings list fin_maps sorting pretty.

Local Open Scope Z_scope.

(** ** Python outcomes *)

Inductive exn : Type :=
  | ValueError (msg : string)
  | PyException (msg : string)
  | IndexError
  | KeyError
  | TypeError.

(** [OutOfFuel] is not a Python outcome: it marks a run of the unbounded
    [while] loop of [_sample_independent_bit_vectors] that needs more
    iterations than the fuel given. *)
Inductive outcome (A : Type) : Type :=
  | Return (a : A)
  | Raise (e : exn)
  | OutOfFuel.
Arguments Return {A} a.
Arguments Raise {A} e.
Arguments OutOfFuel {A}.

(** What a method hands back to its caller when the claim is about the
    Python value itself. *)
Inductive pyval : Type :=
  | PyNone
  | PyBool (b : bool)
  | PyInt (i : Z).

(** The second argument of [find_mask]: a [dict] from bit strings to bit
    strings, or some other Python object. *)
Inductive pyobj : Type :=
  | PyDict (items : list (string * string))
  | PyList (elems : list string)
  | PyStr (s : string)
  | PyNoneObj.

(** ** grove.alpha.simon.utils *)

Module utils.

(** Modelled from the spec: [utils.most_significant_bit], of the module
    grove.alpha.simon.utils, whose source is not available.  The leading-one
    index is "the position of the most significant set bit in a bit vector",
    "0-indexed from the most significant position": the index of the first
    entry equal to 1.  A vector without a 1 has no such index. *)
Fixpoint most_significant_bit (lst : list Z) : option nat :=
  match lst with
  | [] => None
  | b :: lst' => if b =? 1 then Some 0%nat
                 else S <$> most_significant_bit lst'
  end.

(** Modelled from the spec: the XOR of two characters of a bit string, for
    [utils.bitwise_xor] below. *)
Definition xor_char (a b : ascii) : option ascii :=
  if decide (a = "0"%char ∨ a = "1"%char) then
    if decide (b = "0"%char ∨ b = "1"%char) then
      Some (if decide (a = b) then "0"%char else "1"%char)
    else None
  else None.

(** Modelled from the spec: [utils.bitwise_xor], of the module
    grove.alpha.simon.utils, whose source is not available.  Bit strings are
    elements of GF(2)^n and "XOR [is] elementwise"; the result is defined for
    two strings of 0s and 1s of the same length only. *)
Fixpoint bitwise_xor (bs0 bs1 : string) : option string :=
  match bs0, bs1 with
  | EmptyString, EmptyString => Some EmptyString
  | String a bs0', String b bs1' =>
      c ← xor_char a b; r ← bitwise_xor bs0' bs1'; Some (String c r)
  | _, _ => None
  end.

(** Modelled from the spec: the sum over GF(2) of the products of two
    sequences of bits, "addition = XOR, multiplication = AND", for
    [utils.binary_back_substitute] below. *)
Fixpoint dot (row m : list Z) : Z :=
  match row, m with
  | a :: row', b :: m' => Z.lxor (Z.land a b) (dot row' m')
  | _, _ => 0
  end.

(** Modelled from the spec: the recursion of [utils.binary_back_substitute]
    below.  Rows [i], [i+1], ... of the matrix against the target bits [i],
    [i+1], ...: the solved bits [i], [i+1], ... of the mask, the last row
    being solved first. *)
Fixpoint back_substitute_from (i : nat) (W : list (list Z)) (s : list Z)
  : list Z :=
  match W, s with
  | row :: W', t :: s' =>
      let m' := back_substitute_from (S i) W' s' in
      Z.lxor t (dot (drop (S i) row) m') :: m'
  | _, _ => []
  end.

(** Modelled from the spec: [utils.binary_back_substitute], of the module
    grove.alpha.simon.utils, whose source is not available.  "Process rows
    from the last (highest leading-one index) to the first"; "compute each
    mask bit as the XOR of the target bit and the AND-reduction of
    already-solved higher-index mask bits against the corresponding row
    entries, assigned to the pivot position". *)
Definition binary_back_substitute (W : list (list Z)) (s : list Z) : list Z :=
  back_substitute_from 0 W s.

End utils.

(** ** numpy and builtins *)

(** [all(np.asarray(z) == c)] *)
Definition all_eq (c : Z) (z : list Z) : bool := forallb (Z.eqb c) z.

(** [np.zeros(shape=(n,))] with entry [i] set to 1, as a list of ints. *)
Definition unit_vector (n i : nat) : list Z := <[i := 1]> (replicate n 0).

Fixpoint bin_pos (p : positive) (acc : string) : string :=
  match p with
  | xH => String "1" acc
  | xO p' => bin_pos p' (String "0" acc)
  | xI p' => bin_pos p' (String "1" acc)
  end.

Fixpoint zeros_str (n : nat) : string :=
  match n with O => EmptyString | S n' => String "0" (zeros_str n') end.

(** [np.binary_repr(b, width)] for [b >= 0]. *)
Definition binary_repr (b : N) (width : nat) : string :=
  let s := match b with N0 => "0"%string | Npos p => bin_pos p EmptyString end in
  (zeros_str (width - String.length s) +:+ s)%string.

Fixpoint int2_go (acc : N) (s : string) : option N :=
  match s with
  | EmptyString => Some acc
  | String c s' =>
      if decide (c = "0"%char) then int2_go (2 * acc)%N s'
      else if decide (c = "1"%char) then int2_go (2 * acc + 1)%N s'
      else None
  end.

(** [int(s, 2)] on a plain string of binary digits; anything else is a
    [ValueError]. *)
Definition int2 (s : string) : option N :=
  match s with EmptyString => None | _ => int2_go 0%N s end.

(** [''.join([str(b) for b in mask])] *)
Definition join_str (mask : list Z) : string :=
  foldr (λ b acc, (pretty b +:+ acc)%string) EmptyString mask.

(** [d[k]] on a dict in insertion order. *)
Fixpoint getitem (d : list (string * string)) (k : string) : option string :=
  match d with
  | [] => None
  | (k', v) :: d' => if decide (k' = k) then Some v else getitem d' k
  end.

(** ** The state of a [Simon] object *)

(** A pyQuil program, as far as [_construct_simon_circuit] builds one. *)
Inductive instr : Type :=
  | DefGate (name : string) (matrix : list (N * N))
  | H (qubit : nat)
  | Gate (name : string) (qubits : list nat).

(** The attributes of [Simon].  [unitary_function_mapping] keeps the index
    pairs [(i, j)] of the entries of the permutation matrix set to 1;
    [mask] is [None] until [_invert_mask_equation] has run. *)
Record Simon : Type := mkSimon {
  unitary_function_mapping : list (N * N);
  n_qubits : nat;
  n_ancillas : nat;
  _qubits : list nat;
  log_qubits : list nat;
  ancillas : list nat;
  simon_circuit : list instr;
  _dict_of_linearly_indep_bit_vectors : gmap nat (list Z);
  mask : option (list Z);
  bit_map : list (string * string);
  classical_register : list nat
}.

(** [Simon.__init__] *)
Definition Simon_new : Simon :=
  mkSimon [] 0 0 [] [] [] [] ∅ None [] [].

(** The object and the number of calls made on the connection so far. *)
Record world : Type := mkWorld {
  self : Simon;
  cxn_calls : nat
}.

Definition M (A : Type) : Type := world → outcome A * world.

#[global] Instance M_ret : MRet M := λ A a w, (Return a, w).

#[global] Instance M_bind : MBind M := λ A B f m w,
  match m w with
  | (Return a, w') => f a w'
  | (Raise e, w') => (Raise e, w')
  | (OutOfFuel, w') => (OutOfFuel, w')
  end.

Definition raise {A} (e : exn) : M A := λ w, (Raise e, w).

Definition out_of_fuel {A} : M A := λ w, (OutOfFuel, w).

(** Read an attribute of [self]. *)
Definition attr {A} (f : Simon → A) : M A := λ w, (Return (f (self w)), w).

(** Assign attributes of [self]. *)
Definition assign (f : Simon → Simon) : M unit :=
  λ w, (Return (), mkWorld (f (self w)) (cxn_calls w)).

(** An [option] whose [None] is the exception [e]. *)
Definition or_raise {A} (e : exn) (o : option A) : M A :=
  match o with Some a => mret a | None => raise e end.

Definition set_dict (d : gmap nat (list Z)) (s : Simon) : Simon :=
  mkSimon (unitary_function_mapping s) (n_qubits s) (n_ancillas s) (_qubits s)
    (log_qubits s) (ancillas s) (simon_circuit s) d (mask s) (bit_map s)
    (classical_register s).

Definition set_mask (m : option (list Z)) (s : Simon) : Simon :=
  mkSimon (unitary_function_mapping s) (n_qubits s) (n_ancillas s) (_qubits s)
    (log_qubits s) (ancillas s) (simon_circuit s)
    (_dict_of_linearly_indep_bit_vectors s) m (bit_map s)
    (classical_register s).

(** [cxn.run_and_measure(self.simon_circuit, self.log_qubits)[0]] *)
Definition run_and_measure (cxn : nat → list Z) : M (list Z) :=
  λ w, (Return (cxn (cxn_calls w)), mkWorld (self w) (S (cxn_calls w))).

(** ** The methods of [Simon] *)

(** One step of the inner loop of [_compute_unitary_oracle_matrix]. *)
Definition oracle_entry (pad_str : string) (n_bits : nat) (kv : string * string)
  : M (N * N) :=
  x ← or_raise (ValueError "Bit strings are not of equal length")
         (utils.bitwise_xor pad_str kv.2);
  i ← or_raise (ValueError "invalid literal for int() with base 2")
         (int2 (pad_str +:+ kv.1));
  j ← or_raise (ValueError "invalid literal for int() with base 2")
         (int2 (x +:+ kv.1));
  if decide (i < 2 ^ (2 * N.of_nat n_bits) ∧ j < 2 ^ (2 * N.of_nat n_bits))%N
  then mret (i, j) else raise IndexError.

Definition _compute_unitary_oracle_matrix (bitstring_map : list (string * string))
  : M (list (N * N)) :=
  k0 ← or_raise IndexError (head (bitstring_map.*1));
  let n_bits := String.length k0 in
  rows ← mapM (λ b : nat,
                 mapM (oracle_entry (binary_repr (N.of_nat b) n_bits) n_bits)
                      bitstring_map)
              (seq 0 (2 ^ n_bits));
  mret (concat rows).

Definition _construct_simon_circuit : M (list instr) :=
  ufm ← attr unitary_function_mapping;
  lq ← attr log_qubits;
  qs ← attr _qubits;
  mret ([DefGate "SIMON_ORACLE" ufm] ++ (H <$> lq)
        ++ [Gate "SIMON_ORACLE" (reverse qs)] ++ (H <$> lq)).

Definition _init_attr (bitstring_map : list (string * string)) : M unit :=
  k0 ← or_raise IndexError (head (bitstring_map.*1));
  let n := String.length k0 in
  assign (λ s, mkSimon (unitary_function_mapping s) n n (seq 0 (n + n))
                 (take n (seq 0 (n + n))) (drop n (seq 0 (n + n)))
                 (simon_circuit s) (_dict_of_linearly_indep_bit_vectors s)
                 (mask s) bitstring_map (seq 0 (n + n)));;
  ufm ← _compute_unitary_oracle_matrix bitstring_map;
  assign (λ s, mkSimon ufm (n_qubits s) (n_ancillas s) (_qubits s)
                 (log_qubits s) (ancillas s) (simon_circuit s)
                 (_dict_of_linearly_indep_bit_vectors s) (mask s) (bit_map s)
                 (classical_register s));;
  c ← _construct_simon_circuit;
  assign (λ s, mkSimon (unitary_function_mapping s) (n_qubits s) (n_ancillas s)
                 (_qubits s) (log_qubits s) (ancillas s) c ∅ None (bit_map s)
                 (classical_register s)).

(** [conflict_z[idx] ^ z[idx]] *)
Definition xor_at (conflict_z z : list Z) (idx : nat) : M Z :=
  a ← or_raise IndexError (conflict_z !! idx);
  b ← or_raise IndexError (z !! idx);
  mret (Z.lxor a b).

(** The method has no [return] with a value: every path hands back [None]. *)
Definition _add_to_dict_of_indep_bit_vectors (z : list Z) : M pyval :=
  if all_eq 0 z || all_eq 1 z then mret PyNone
  else
    msb_z ← or_raise IndexError (utils.most_significant_bit z);
    d ← attr _dict_of_linearly_indep_bit_vectors;
    match d !! msb_z with
    | None => assign (set_dict (<[msb_z := z]> d));; mret PyNone
    | Some conflict_z =>
        not_z ← mapM (xor_at conflict_z z) (seq 0 (length z));
        if all_eq 0 not_z then mret PyNone
        else
          msb_not_z ← or_raise IndexError (utils.most_significant_bit not_z);
          d ← attr _dict_of_linearly_indep_bit_vectors;
          match d !! msb_not_z with
          | None => assign (set_dict (<[msb_not_z := not_z]> d));; mret PyNone
          | Some _ => mret PyNone
          end
    end.

(** The [while] loop, run for at most [fuel] iterations.  The comparison
    [len(...) < self.n_qubits - 1] is one of Python integers. *)
Fixpoint _sample_independent_bit_vectors (fuel : nat) (cxn : nat → list Z)
  : M unit :=
  d ← attr _dict_of_linearly_indep_bit_vectors;
  n ← attr n_qubits;
  if decide (Z.of_nat (size d) < Z.of_nat n - 1) then
    match fuel with
    | O => out_of_fuel
    | S fuel' =>
        z ← run_and_measure cxn;
        _add_to_dict_of_indep_bit_vectors z;;
        _sample_independent_bit_vectors fuel' cxn
    end
  else mret ().

Definition _add_missing_provenance_vector : M nat :=
  d ← attr _dict_of_linearly_indep_bit_vectors;
  n ← attr n_qubits;
  let missing_prov :=
    foldl (λ acc idx, if decide (idx ∈ dom d) then acc else Some idx)
          None (seq 0 n) in
  match missing_prov with
  | None => raise (ValueError "Expected a missing provenance, but didn't find one.")
  | Some missing_prov =>
      assign (set_dict (<[missing_prov := unit_vector n missing_prov]> d));;
      mret missing_prov
  end.

(** The order of [key=lambda x: x[0]]. *)
Definition key_le (x y : nat * list Z) : Prop := (x.1 ≤ y.1)%nat.

#[global] Instance key_le_dec : RelDecision key_le :=
  λ x y, decide (x.1 ≤ y.1)%nat.

(** [sorted(zip(d.keys(), d.values()), key=lambda x: x[0])], then the second
    components. *)
Definition sorted_rows (d : gmap nat (list Z)) : list (list Z) :=
  (merge_sort key_le (map_to_list d)).*2.

Definition _invert_mask_equation : M unit :=
  missing_prov ← _add_missing_provenance_vector;
  d ← attr _dict_of_linearly_indep_bit_vectors;
  let upper_triangular_matrix := sorted_rows d in
  n ← attr n_qubits;
  let provenance_unit := unit_vector n missing_prov in
  assign (set_mask
    (Some (utils.binary_back_substitute upper_triangular_matrix provenance_unit))).

(** One element of the list comprehension of [_check_mask_correct]. *)
Definition check_key (bit_map : list (string * string)) (mask_str k : string)
  : M bool :=
  v ← or_raise KeyError (getitem bit_map k);
  k' ← or_raise (ValueError "Bit strings are not of equal length")
         (utils.bitwise_xor k mask_str);
  v' ← or_raise KeyError (getitem bit_map k');
  mret (bool_decide (v = v')).

Definition _check_mask_correct : M bool :=
  m ← attr mask;
  m ← or_raise TypeError m;
  let mask_str := join_str m in
  bm ← attr bit_map;
  bs ← mapM (check_key bm mask_str) (bm.*1);
  mret (forallb id bs).

Definition find_mask (fuel : nat) (cxn : nat → list Z) (bitstring_map : pyobj)
  : M (option (list Z)) :=
  match bitstring_map with
  | PyDict bitstring_map =>
      _init_attr bitstring_map;;
      _sample_independent_bit_vectors fuel cxn;;
      _invert_mask_equation;;
      ok ← _check_mask_correct;
      if (ok : bool) then attr mask
      else raise (PyException "No valid mask found")
  | _ => raise (ValueError "Bitstring map needs to be a map from bitstring to bitstring")
  end.

(** ** The module-level helpers *)

(** [dct[k] = v] on a dict in insertion order. *)
Fixpoint setitem (d : list (string * string)) (k v : string)
  : list (string * string) :=
  match d with
  | [] => [(k, v)]
  | (k', v') :: d' =>
      if decide (k' = k) then (k', v) :: d' else (k', v') :: setitem d' k v
  end.

(** The [for] loop of [create_periodic_1to1_bitmap], over the indices still
    to visit.  ["{0:0" + str(n_bits) + "b}".format(idx)] is the binary
    representation of [idx] padded with zeros to [n_bits] characters. *)
Fixpoint periodic_loop (mask : string) (n_bits : nat) (idxs : list nat)
    (dct : list (string * string)) : outcome (list (string * string)) :=
  match idxs with
  | [] => Return dct
  | idx :: idxs' =>
      let bit_string := binary_repr (N.of_nat idx) n_bits in
      match utils.bitwise_xor bit_string mask with
      | Some x => periodic_loop mask n_bits idxs' (setitem dct bit_string x)
      | None => Raise (ValueError "Bit strings are not of equal length")
      end
  end.

Definition create_periodic_1to1_bitmap (mask : string)
  : outcome (list (string * string)) :=
  let n_bits := String.length mask in
  periodic_loop mask n_bits (seq 0 (2 ^ n_bits)) [].

(** The order of [key=lambda x: x[0]] on pairs of strings. *)
Definition str_key_le (x y : string * string) : Prop :=
  String.leb x.1 y.1 = true.

#[global] Instance str_key_le_dec : RelDecision str_key_le :=
  λ x y, decide (String.leb x.1 y.1 = true).

(** The [while] loop of [create_valid_2to1_bitmap], over the values of [cnt]
    still to visit. *)
Fixpoint valid_loop (list_of_tup : list (string * string))
    (list_of_half_size : list string) (cnts : list nat)
    (dct : list (string * string)) : outcome (list (string * string)) :=
  match cnts with
  | [] => Return dct
  | cnt :: cnts' =>
      match list_of_tup !! cnt, list_of_half_size !! cnt with
      | Some tup, Some val =>
          valid_loop list_of_tup list_of_half_size cnts'
            (setitem (setitem dct tup.1 val) tup.2 val)
      | _, _ => Raise IndexError
      end
  end.

(** [rd_choice keys size] stands for the random draw
    [rd.choice(keys, replace=False, size=size)]. *)
Definition create_valid_2to1_bitmap
    (rd_choice : list string → nat → list string) (mask : string)
  : outcome (list (string * string)) :=
  match create_periodic_1to1_bitmap mask with
  | Return bm =>
      let n_samples := (length bm.*1 / 2)%nat in
      let list_of_half_size := rd_choice bm.*1 n_samples in
      let list_of_tup := merge_sort str_key_le bm in
      valid_loop list_of_tup list_of_half_size (seq 0 n_samples) []
  | Raise e => Raise e
  | OutOfFuel => OutOfFuel
  end.

(** ** Vocabulary of the properties *)

Abbreviation basis_of w := (_dict_of_linearly_indep_bit_vectors (self w)).

Definition bit (b : Z) : Prop := b = 0 ∨ b = 1.

(** A bit vector of [GF(2)^n]. *)
Definition bitvec (n : nat) (v : list Z) : Prop := length v = n ∧ Forall bit v.

(** The test on the first line of [_add_to_dict_of_indep_bit_vectors]. *)
Definition degenerate (z : list Z) : bool := all_eq 0 z || all_eq 1 z.

(** Every stored vector is a bit vector of length [n] filed under its own
    leading-one index. *)
Definition basis_inv (n : nat) (d : gmap nat (list Z)) : Prop :=
  ∀ k v, d !! k = Some v → bitvec n v ∧ utils.most_significant_bit v = Some k.

(** The sum in [GF(2)^n] of a list of vectors. *)
Definition xor_sum (n : nat) (vs : list (list Z)) : list Z :=
  foldr (zip_with Z.lxor) (replicate n 0) vs.

(** The stored vectors filed under the keys [ks]. *)
Definition select (d : gmap nat (list Z)) (ks : list nat) : list (list Z) :=
  omap (λ k, d !! k) ks.

(** Linear independence over GF(2): no non-empty choice of stored vectors
    sums to the zero vector. *)
Definition lin_indep (n : nat) (d : gmap nat (list Z)) : Prop :=
  ∀ ks : list nat, NoDup ks → ks ≠ [] → (∀ k, k ∈ ks → is_Some (d !! k)) →
    xor_sum n (select d ks) ≠ replicate n 0.

(** The matrix-vector product over GF(2). *)
Definition mat_vec (W : list (list Z)) (m : list Z) : list Z :=
  (λ row, utils.dot row m) <$> W.

(** The indices of [range(n)] without an entry, in increasing order. *)
Definition missing (n : nat) (d : gmap nat (list Z)) : list nat :=
  filter (λ idx, idx ∉ dom d) (seq 0 n).

(** The truth table of the docstring of [create_valid_2to1_bitmap]. *)
Definition table_110 : list (string * string) :=
  [("000", "101"); ("001", "010"); ("010", "000"); ("011", "110");
   ("100", "000"); ("101", "110"); ("110", "101"); ("111", "010")]%string.

(** A sample of Simon's circuit for a function of period [s] is a bit vector
    orthogonal to [s]. *)
Definition consistent (s z : list Z) : Prop :=
  bitvec (length s) z ∧ utils.dot z s = 0.

(** A fresh object, no call made on the connection yet. *)
Definition world0 : world := mkWorld Simon_new 0.

(** The world [w] with [self._dict_of_linearly_indep_bit_vectors = d]. *)
Definition with_dict (d : gmap nat (list Z)) (w : world) : world :=
  mkWorld (set_dict d (self w)) (cxn_calls w).

(** The object once [_init_attr] has run on [table_110]. *)
Definition simon_110 : Simon := self (_init_attr table_110 world0).2.

(** That object with basis [d], after [c] calls on the connection. *)
Definition st_110 (d : gmap nat (list Z)) (c : nat) : world :=
  mkWorld (set_dict d simon_110) c.

(** The basis for [table_110] once [001] ([a]) and [110] ([b]) have been
    drawn. *)
Definition basis_110 (a b : bool) : gmap nat (list Z) :=
  (if a then <[2%nat := [0; 0; 1]]> else id)
    ((if b then <[0%nat := [1; 1; 0]]> else id) ∅).

(** Whether the sample [v] is among the first [c] answers of [cxn]. *)
Definition drawn (cxn : nat → list Z) (v : list Z) (c : nat) : bool :=
  existsb (λ i, bool_decide (cxn i = v)) (seq 0 c).

(** A connection that answers 001, 111, 001, 111, ... *)
Definition cxn_001_111 (i : nat) : list Z :=
  if Nat.even i then [0; 0; 1] else [1; 1; 1].

(** A connection that answers 001, 110, 110, 110, ... *)
Definition cxn_001_110 (i : nat) : list Z :=
  if decide (i = 0%nat) then [0; 0; 1] else [1; 1; 0].

(** An outcome other than the plain [Exception] that only [find_mask]
    raises. *)
Definition no_plain_exception {A} (r : outcome A) : Prop :=
  match r with Raise (PyException _) => False | _ => True end.

(** The key [k] passes the comparison of [_check_mask_correct]: [k XOR mask]
    is a key of the table and both keys have the same value. *)
Definition same_value (bm : list (string * string)) (mask_str k : string)
  : Prop :=
  ∃ k' v, utils.bitwise_xor k mask_str = Some k'
          ∧ getitem bm k = Some v ∧ getitem bm k' = Some v.

(** Every stored vector is orthogonal to [s] over GF(2). *)
Definition orthogonal_basis (s : list Z) (d : gmap nat (list Z)) : Prop :=
  ∀ k v, d !! k = Some v → utils.dot v s = 0.

(** A computation that neither reads nor changes the world. *)
Definition pure_comp {A} (m : M A) : Prop := ∃ r, ∀ w, m w = (r, w).

(** A string of 0s and 1s. *)
Fixpoint is_bits (s : string) : Prop :=
  match s with
  | EmptyString => True
  | String c s' => (c = "0"%char ∨ c = "1"%char) ∧ is_bits s'
  end.

(** A bit string of length [n]. *)
Definition bitstring (n : nat) (s : string) : Prop :=
  String.length s = n ∧ is_bits s.

(** A non-empty table all of whose keys and values are bit strings of
    length [n]. *)
Definition wf_table (n : nat) (bm : list (string * string)) : Prop :=
  bm ≠ [] ∧ ∀ k v, (k, v) ∈ bm → bitstring n k ∧ bitstring n v.

(** A well-formed table with a value for every bit string of length [n]. *)
Definition complete_table (n : nat) (bm : list (string * string)) : Prop :=
  wf_table n bm ∧ ∀ k, bitstring n k → is_Some (getitem bm k).

(** ** Running the monad *)

Lemma run_bind {A B} (m : M A) (f : A → M B) w :
  (m ≫= f) w =
  match m w with
  | (Return a, w') => f a w'
  | (Raise e, w') => (Raise e, w')
  | (OutOfFuel, w') => (OutOfFuel, w')
  end.
Proof. reflexivity. Qed.

Lemma run_bind_Return {A B} (m : M A) (f : A → M B) w a w' :
  m w = (Return a, w') → (m ≫= f) w = f a w'.
Proof. intros E. rewrite run_bind, E. reflexivity. Qed.

Lemma run_ret {A} (a : A) w : (mret a : M A) w = (Return a, w).
Proof. reflexivity. Qed.

Lemma run_attr {A} (f : Simon → A) w : attr f w = (Return (f (self w)), w).
Proof. reflexivity. Qed.

Lemma run_or_raise_Some {A} e (a : A) w : or_raise e (Some a) w = (Return a, w).
Proof. reflexivity. Qed.

Lemma run_or_raise_None {A} e w : or_raise (A:=A) e None w = (Raise e, w).
Proof. reflexivity. Qed.

(** ** Bits and leading-one indices *)

Lemma bit_lxor a b : bit a → bit b → bit (Z.lxor a b).
Proof. intros [->| ->] [->| ->]; cbv; auto. Qed.

Lemma bit_land a b : bit a → bit b → bit (Z.land a b).
Proof. intros [->| ->] [->| ->]; cbv; auto. Qed.

Lemma msb_lt v k : utils.most_significant_bit v = Some k → (k < length v)%nat.
Proof.
  revert k. induction v as [|b v IH]; intros k; simpl; [done|].
  destruct (b =? 1); [intros [= <-]; lia|].
  destruct (utils.most_significant_bit v) as [k'|]; simpl; [|done].
  intros [= <-]. specialize (IH k' eq_refl). lia.
Qed.

Lemma msb_lookup v k : utils.most_significant_bit v = Some k → v !! k = Some 1.
Proof.
  revert k. induction v as [|b v IH]; intros k; simpl; [done|].
  destruct (Z.eqb_spec b 1) as [->|]; [by intros [= <-]|].
  destruct (utils.most_significant_bit v) as [k'|]; simpl; [|done].
  intros [= <-]. by apply IH.
Qed.

Lemma msb_before v k j :
  Forall bit v → utils.most_significant_bit v = Some k → (j < k)%nat →
  v !! j = Some 0.
Proof.
  intros Hv. revert k j. induction Hv as [|b v Hb Hv IH]; intros k j; simpl; [done|].
  destruct (Z.eqb_spec b 1) as [->|Hne]; [intros [= <-]; lia|].
  destruct (utils.most_significant_bit v) as [k'|]; simpl; [|done].
  intros [= <-] Hj. destruct j as [|j]; simpl.
  - destruct Hb; congruence.
  - apply (IH k'); [done|lia].
Qed.

Lemma msb_intro v k :
  v !! k = Some 1 → (∀ j, (j < k)%nat → v !! j = Some 0) →
  utils.most_significant_bit v = Some k.
Proof.
  revert k. induction v as [|b v IH]; intros k; simpl; [done|].
  destruct k as [|k]; simpl.
  - intros [= ->] _. reflexivity.
  - intros Hk Hlt. pose proof (Hlt 0%nat ltac:(lia)) as H0. simpl in H0.
    injection H0 as ->. simpl.
    rewrite (IH k); [done|done|]. intros j Hj. apply (Hlt (S j)). lia.
Qed.

Lemma msb_None_all_zero v :
  Forall bit v → utils.most_significant_bit v = None → all_eq 0 v = true.
Proof.
  induction 1 as [|b v Hb Hv IH]; simpl; [done|].
  destruct (Z.eqb_spec b 1) as [->|Hne]; [done|].
  destruct (utils.most_significant_bit v); simpl; [done|]. intros _.
  destruct Hb as [->|]; [|done]. simpl. by apply IH.
Qed.

Lemma all_eq_replicate c n : all_eq c (replicate n c) = true.
Proof.
  induction n as [|n IH]; simpl; [done|]. by rewrite Z.eqb_refl.
Qed.

Lemma all_eq_spec c v : all_eq c v = true ↔ v = replicate (length v) c.
Proof.
  induction v as [|b v IH]; simpl; [done|].
  rewrite andb_true_iff, IH, Z.eqb_eq. split.
  - intros [-> ->]. by rewrite length_replicate.
  - intros [= <- Hv]. split; [done|]. by rewrite Hv at 1.
Qed.

Lemma unit_vector_length n i : length (unit_vector n i) = n.
Proof. unfold unit_vector. by rewrite length_insert, length_replicate. Qed.

Lemma unit_vector_bits n i : Forall bit (unit_vector n i).
Proof.
  unfold unit_vector. apply Forall_insert; [|by right].
  apply Forall_replicate. by left.
Qed.

Lemma unit_vector_bitvec n i : bitvec n (unit_vector n i).
Proof. split; [apply unit_vector_length|apply unit_vector_bits]. Qed.

Lemma unit_vector_msb n i :
  (i < n)%nat → utils.most_significant_bit (unit_vector n i) = Some i.
Proof.
  intros Hi. unfold unit_vector. apply msb_intro.
  - apply list_lookup_insert_eq. by rewrite length_replicate.
  - intros j Hj. rewrite list_lookup_insert_ne by lia.
    apply lookup_replicate_2. lia.
Qed.

(** ** The accumulator *)

Lemma with_dict_same w : with_dict (basis_of w) w = w.
Proof. by destruct w as [[] ?]. Qed.

Lemma basis_of_with_dict d w : basis_of (with_dict d w) = d.
Proof. reflexivity. Qed.

Lemma run_assign_dict d w : assign (set_dict d) w = (Return (), with_dict d w).
Proof. reflexivity. Qed.

Lemma xor_at_world c z idx w : (xor_at c z idx w).2 = w.
Proof.
  unfold xor_at. rewrite !run_bind.
  destruct (c !! idx); simpl; [|done]. by destruct (z !! idx).
Qed.

Lemma mapM_xor_at_world c z l w : (mapM (xor_at c z) l w).2 = w.
Proof.
  induction l as [|i l IH]; simpl; [done|].
  rewrite run_bind. pose proof (xor_at_world c z i w) as Hx.
  destruct (xor_at c z i w) as [[a|e|] w1]; simpl in Hx; subst w1; [|done..].
  rewrite run_bind. destruct (mapM (xor_at c z) l w) as [[r|e|] w1];
    simpl in IH; subst w1; done.
Qed.

Lemma mapM_xor_at_outcome c z l w :
  match (mapM (xor_at c z) l w).1 with
  | Return _ => True
  | Raise e => e = IndexError
  | OutOfFuel => False
  end.
Proof.
  induction l as [|i l IH]; simpl; [done|].
  rewrite run_bind. unfold xor_at at 1. rewrite !run_bind.
  destruct (c !! i); simpl; [|done].
  destruct (z !! i); simpl; [|done].
  rewrite run_bind.
  destruct (mapM (xor_at c z) l w) as [[r|e'|] w1]; simpl in *; done.
Qed.

Lemma mapM_xor_at_seq c z w len i :
  (i + len ≤ length c)%nat → (i + len ≤ length z)%nat →
  mapM (xor_at c z) (seq i len) w =
    (Return (zip_with Z.lxor (take len (drop i c)) (take len (drop i z))), w).
Proof.
  revert i. induction len as [|len IH]; intros i Hc Hz; simpl; [done|].
  destruct (lookup_lt_is_Some_2 c i ltac:(lia)) as [a Ha].
  destruct (lookup_lt_is_Some_2 z i ltac:(lia)) as [b Hb].
  rewrite run_bind. unfold xor_at at 1. rewrite Ha, Hb. simpl.
  rewrite run_bind, IH by lia.
  rewrite (drop_S c a i Ha), (drop_S z b i Hb). reflexivity.
Qed.

Lemma mapM_xor_at c z w :
  length c = length z →
  mapM (xor_at c z) (seq 0 (length z)) w = (Return (zip_with Z.lxor c z), w).
Proof.
  intros Hl. rewrite mapM_xor_at_seq by lia. rewrite !drop_0.
  rewrite <-Hl at 1. by rewrite !firstn_all.
Qed.

Lemma zip_lxor_bitvec n c z :
  bitvec n c → bitvec n z → bitvec n (zip_with Z.lxor c z).
Proof.
  intros [Hlc Hc] [Hlz Hz]. split.
  - rewrite length_zip_with. lia.
  - clear Hlc Hlz. revert z Hz. induction Hc as [|a c Ha Hc IH];
      intros z Hz; [constructor|].
    destruct Hz as [|b z Hb Hz]; simpl; [constructor|].
    constructor; [by apply bit_lxor|by apply IH].
Qed.

(** The heart of the conflict resolution: two bit vectors with the same
    leading-one index cancel up to and including that index. *)
Lemma conflict_msb_gt n c z k k2 :
  bitvec n c → bitvec n z →
  utils.most_significant_bit c = Some k →
  utils.most_significant_bit z = Some k →
  utils.most_significant_bit (zip_with Z.lxor c z) = Some k2 →
  (k < k2)%nat.
Proof.
  intros [Hlc Hc] [Hlz Hz] Hkc Hkz Hk2.
  apply msb_lookup in Hk2 as Hone.
  destruct (decide (k2 < k)%nat) as [Hlt|Hge].
  - rewrite lookup_zip_with, (msb_before c k k2), (msb_before z k k2) in Hone
      by done. done.
  - destruct (decide (k2 = k)) as [->|]; [|lia].
    rewrite lookup_zip_with, (msb_lookup c k), (msb_lookup z k) in Hone by done.
    done.
Qed.

(** What one call does to a basis that satisfies the invariant: it returns
    [None], and the basis is either untouched or has gained one binding
    that keeps the invariant. *)
Lemma add_step n z w :
  basis_inv n (basis_of w) → bitvec n z →
  ∃ d', _add_to_dict_of_indep_bit_vectors z w = (Return PyNone, with_dict d' w)
        ∧ basis_inv n d'
        ∧ (d' = basis_of w
           ∨ ∃ k v, basis_of w !! k = None ∧ d' = <[k:=v]> (basis_of w)).
Proof.
  intros Hinv Hz. unfold _add_to_dict_of_indep_bit_vectors.
  assert (Hsame : ∃ d', (Return PyNone, w) = (Return PyNone, with_dict d' w)
        ∧ basis_inv n d'
        ∧ (d' = basis_of w
           ∨ ∃ k v, basis_of w !! k = None ∧ d' = <[k:=v]> (basis_of w))).
  { exists (basis_of w). rewrite with_dict_same. auto. }
  destruct (all_eq 0 z || all_eq 1 z) eqn:Hdeg; [exact Hsame|].
  apply orb_false_iff in Hdeg as [Hnz _].
  destruct (utils.most_significant_bit z) as [k|] eqn:Hk;
    [|apply msb_None_all_zero in Hk; [congruence|apply Hz]].
  rewrite run_bind, run_or_raise_Some, run_bind, run_attr.
  destruct (basis_of w !! k) as [c|] eqn:Hck.
  - destruct (Hinv k c Hck) as [Hc Hkc].
    rewrite run_bind, mapM_xor_at by (destruct Hc, Hz; lia).
    pose proof (zip_lxor_bitvec n c z Hc Hz) as Hnot.
    destruct (all_eq 0 (zip_with Z.lxor c z)) eqn:Hnz2; [exact Hsame|].
    destruct (utils.most_significant_bit (zip_with Z.lxor c z)) as [k2|] eqn:Hk2;
      [|apply msb_None_all_zero in Hk2; [congruence|apply Hnot]].
    rewrite run_bind, run_or_raise_Some, run_bind, run_attr.
    destruct (basis_of w !! k2) as [c2|] eqn:Hck2; [exact Hsame|].
    rewrite run_bind, run_assign_dict, run_ret.
    eexists; split; [reflexivity|]. split; [|right; eauto].
    intros k' v'. rewrite lookup_insert. case_decide as Hkk.
    + intros [= <-]. subst k'. done.
    + apply Hinv.
  - rewrite run_bind, run_assign_dict, run_ret.
    eexists; split; [reflexivity|]. split; [|right; eauto].
    intros k' v'. rewrite lookup_insert. case_decide as Hkk.
    + intros [= <-]. subst k'. done.
    + apply Hinv.
Qed.

(** Without any assumption on the sample or on the basis: whatever the call
    does (it may raise), it touches nothing but the basis, and the basis is
    either untouched or has gained one binding under a key that was free. *)
Lemma add_frame z w :
  ∃ r d', _add_to_dict_of_indep_bit_vectors z w = (r, with_dict d' w)
        ∧ (r = Return PyNone ∨ r = Raise IndexError)
        ∧ (d' = basis_of w
           ∨ ∃ k v, basis_of w !! k = None ∧ d' = <[k:=v]> (basis_of w)).
Proof.
  unfold _add_to_dict_of_indep_bit_vectors.
  assert (Hsame : ∀ r, r = Return PyNone ∨ r = Raise IndexError →
     ∃ r' d', (r, w) = (r', with_dict d' w)
        ∧ (r' = Return PyNone ∨ r' = Raise IndexError)
        ∧ (d' = basis_of w
           ∨ ∃ k v, basis_of w !! k = None ∧ d' = <[k:=v]> (basis_of w))).
  { intros r Hr. exists r, (basis_of w). rewrite with_dict_same. auto. }
  destruct (all_eq 0 z || all_eq 1 z); [apply Hsame; auto|].
  rewrite run_bind.
  destruct (utils.most_significant_bit z) as [k|]; simpl; [|apply Hsame; auto].
  rewrite run_bind, run_attr.
  destruct (basis_of w !! k) as [c|] eqn:Hck.
  - rewrite run_bind. pose proof (mapM_xor_at_world c z (seq 0 (length z)) w) as Hw.
    destruct (mapM (xor_at c z) (seq 0 (length z)) w) as [[not_z|e|] w1] eqn:Hx;
      simpl in Hw; subst w1.
    + destruct (all_eq 0 not_z); [apply Hsame; auto|].
      rewrite run_bind.
      destruct (utils.most_significant_bit not_z) as [k2|]; simpl;
        [|apply Hsame; auto].
      rewrite run_bind, run_attr.
      destruct (basis_of w !! k2) as [c2|] eqn:Hck2; [apply Hsame; auto|].
      rewrite run_bind, run_assign_dict, run_ret.
      eexists _, _; split; [reflexivity|]. split; [auto|right; eauto].
    + apply Hsame. right.
      pose proof (mapM_xor_at_outcome c z (seq 0 (length z)) w) as Ho.
      rewrite Hx in Ho. simpl in Ho. by subst e.
    + pose proof (mapM_xor_at_outcome c z (seq 0 (length z)) w) as Ho.
      by rewrite Hx in Ho.
  - rewrite run_bind, run_assign_dict, run_ret.
    eexists _, _; split; [reflexivity|]. split; [auto|right; eauto].
Qed.

Lemma with_dict_with_dict d d' w : with_dict d' (with_dict d w) = with_dict d' w.
Proof. reflexivity. Qed.

Lemma grown_subseteq (d d' : gmap nat (list Z)) :
  d' = d ∨ (∃ k v, d !! k = None ∧ d' = <[k:=v]> d) →
  d ⊆ d' ∧ (d' = d ∨ size d' = S (size d)).
Proof.
  intros [->|(k & v & Hk & ->)]; [auto|].
  split; [by apply insert_subseteq|right; by apply map_size_insert_None].
Qed.

(** Any number of calls, from a basis that satisfies the invariant. *)
Lemma add_all_inv n zs : ∀ w,
  basis_inv n (basis_of w) → Forall (bitvec n) zs →
  ∃ d, mapM _add_to_dict_of_indep_bit_vectors zs w
         = (Return (replicate (length zs) PyNone), with_dict d w)
       ∧ basis_inv n d.
Proof.
  induction zs as [|z zs IH]; intros w Hinv Hzs.
  - exists (basis_of w). by rewrite with_dict_same.
  - apply Forall_cons in Hzs as [Hz Hzs].
    destruct (add_step n z w Hinv Hz) as (d1 & Hrun & Hinv1 & _).
    destruct (IH (with_dict d1 w) Hinv1 Hzs) as (d & Hrun' & Hinv').
    exists d. split; [|done]. cbn [mapM length replicate].
    rewrite run_bind, Hrun, run_bind, Hrun'. reflexivity.
Qed.

Lemma basis_inv_empty n : basis_inv n ∅.
Proof. intros k v. by rewrite lookup_empty. Qed.

(** *** Linear independence of an echelon basis *)

Lemma least_key (ks : list nat) :
  ks ≠ [] → ∃ k0, k0 ∈ ks ∧ ∀ k, k ∈ ks → (k0 ≤ k)%nat.
Proof.
  induction ks as [|k ks IH]; [done|]. intros _.
  destruct ks as [|k' ks].
  - exists k. split; [left|]. intros ? ->%list_elem_of_singleton. done.
  - destruct (IH ltac:(done)) as (k0 & Hin & Hle).
    destruct (decide (k ≤ k0)%nat).
    + exists k. split; [left|]. intros j [->|Hj]%elem_of_cons; [done|].
      specialize (Hle j Hj). lia.
    + exists k0. split; [by right|]. intros j [->|Hj]%elem_of_cons; [lia|].
      by apply Hle.
Qed.

Lemma select_cons d k ks v :
  d !! k = Some v → select d (k :: ks) = v :: select d ks.
Proof. intros Hv. unfold select. simpl. by rewrite Hv. Qed.

Lemma xor_sum_cons n v vs :
  xor_sum n (v :: vs) = zip_with Z.lxor v (xor_sum n vs).
Proof. reflexivity. Qed.

(** Column [k0] of the sum of the rows filed under keys [>= k0]: only the row
    filed under [k0] itself contributes. *)
Lemma xor_sum_column n d ks k0 :
  basis_inv n d → NoDup ks → (k0 < n)%nat →
  (∀ k, k ∈ ks → is_Some (d !! k) ∧ (k0 ≤ k)%nat) →
  xor_sum n (select d ks) !! k0 = Some (if decide (k0 ∈ ks) then 1 else 0).
Proof.
  intros Hinv Hnd Hk0. induction Hnd as [|k ks Hnotin Hnd IH]; intros Hks.
  - destruct (decide (k0 ∈ [])) as [Hin|_]; [by apply not_elem_of_nil in Hin|].
    apply lookup_replicate_2. lia.
  - destruct (Hks k ltac:(left)) as [[v Hv] Hle].
    destruct (Hinv k v Hv) as [[Hlen Hbits] Hmsb].
    rewrite (select_cons d k ks v Hv), xor_sum_cons.
    rewrite lookup_zip_with, IH by (intros j Hj; apply Hks; by right).
    destruct (decide (k = k0)) as [->|Hne].
    + rewrite (msb_lookup v k0 Hmsb). simpl.
      rewrite decide_False by done. rewrite decide_True by left. done.
    + rewrite (msb_before v k k0 Hbits Hmsb) by lia. simpl.
      destruct (decide (k0 ∈ ks)) as [Hin|Hnin].
      * rewrite decide_True by (by right). done.
      * rewrite decide_False; [done|].
        intros [->|?]%elem_of_cons; done.
Qed.

Lemma basis_inv_lin_indep n d : basis_inv n d → lin_indep n d.
Proof.
  intros Hinv ks Hnd Hne Hks Hsum.
  destruct (least_key ks Hne) as (k0 & Hin & Hle).
  destruct (Hks k0 Hin) as [v Hv].
  destruct (Hinv k0 v Hv) as [[Hlen _] Hmsb].
  pose proof (msb_lt v k0 Hmsb) as Hlt. rewrite Hlen in Hlt.
  assert (xor_sum n (select d ks) !! k0 = Some 1) as Hcol.
  { rewrite (xor_sum_column n d ks k0 Hinv Hnd Hlt).
    - by rewrite decide_True.
    - intros k Hk. split; [by apply Hks|by apply Hle]. }
  rewrite Hsum, lookup_replicate_2 in Hcol by lia. done.
Qed.

(** ** The completion of the basis *)

Lemma foldl_last_missing (d : gmap nat (list Z)) l acc :
  foldl (λ acc idx, if decide (idx ∈ dom d) then acc else Some idx) acc l =
  match last (filter (λ idx, idx ∉ dom d) l) with
  | Some m => Some m
  | None => acc
  end.
Proof.
  revert acc. induction l as [|i l IH]; intros acc; [done|].
  cbn [foldl]. rewrite IH, filter_cons.
  destruct (decide (i ∈ dom d)) as [Hin|Hnin].
  - by rewrite decide_False by (intros H; by apply H).
  - rewrite decide_True by done. rewrite last_cons.
    by destruct (last (filter _ l)).
Qed.

(** The completer, in one equation: it raises when [range(n)] has no free
    index and otherwise files the unit vector under the last free one. *)
Lemma run_add_missing w :
  _add_missing_provenance_vector w =
  match last (missing (n_qubits (self w)) (basis_of w)) with
  | None =>
      (Raise (ValueError "Expected a missing provenance, but didn't find one."), w)
  | Some m =>
      (Return m,
       with_dict (<[m := unit_vector (n_qubits (self w)) m]> (basis_of w)) w)
  end.
Proof.
  unfold _add_missing_provenance_vector.
  rewrite run_bind, run_attr, run_bind, run_attr, foldl_last_missing.
  fold (missing (n_qubits (self w)) (basis_of w)).
  by destruct (last (missing _ _)).
Qed.

Lemma elem_of_missing n d i : i ∈ missing n d ↔ (i < n)%nat ∧ d !! i = None.
Proof.
  unfold missing. rewrite list_elem_of_filter, elem_of_seq, not_elem_of_dom.
  intuition lia.
Qed.

Lemma basis_inv_key_lt n d k :
  basis_inv n d → is_Some (d !! k) → (k < n)%nat.
Proof.
  intros Hinv [v Hv]. destruct (Hinv k v Hv) as [[Hlen _] Hmsb].
  apply msb_lt in Hmsb. lia.
Qed.

(** The free indices of a basis whose keys are below [n] number
    [n - len(basis)]. *)
Lemma missing_length n d :
  (∀ k, is_Some (d !! k) → (k < n)%nat) →
  (length (missing n d) + size d = n)%nat.
Proof.
  intros Hlt.
  pose proof (filter_app_complement (λ idx, idx ∈ dom d) (seq 0 n)) as Hp.
  apply Permutation_length in Hp. rewrite length_app, length_seq in Hp.
  fold (missing n d) in Hp.
  assert (filter (λ idx, idx ∈ dom d) (seq 0 n) ≡ₚ elements (dom d)) as Hq.
  { apply NoDup_Permutation.
    - apply NoDup_filter, NoDup_seq.
    - apply NoDup_elements.
    - intros k. rewrite list_elem_of_filter, elem_of_elements, elem_of_seq.
      split; [tauto|]. intros Hk. split; [done|].
      apply elem_of_dom in Hk. apply Hlt in Hk. lia. }
  apply Permutation_length in Hq.
  rewrite <-(size_dom d). unfold size at 1, set_size. simpl. lia.
Qed.

Lemma missing_singleton n d :
  (∀ k, is_Some (d !! k) → (k < n)%nat) →
  Z.of_nat (size d) = Z.of_nat n - 1 →
  ∃ m, missing n d = [m].
Proof.
  intros Hlt Hsz. pose proof (missing_length n d Hlt) as Hlen.
  destruct (missing n d) as [|m [|m' l]]; simpl in Hlen; [lia| |lia].
  by exists m.
Qed.

(** *** Reading the completed basis in key order *)

Lemma Sorted_le_seq j n : Sorted le (seq j n).
Proof.
  revert j. induction n as [|n IH]; intros j; simpl; [constructor|].
  constructor; [apply IH|]. destruct n; simpl; constructor. lia.
Qed.

#[global] Instance key_le_total : Total key_le.
Proof. intros x y. unfold key_le. lia. Qed.

Lemma sorted_keys n (d : gmap nat (list Z)) :
  (∀ i, is_Some (d !! i) ↔ (i < n)%nat) →
  (merge_sort key_le (map_to_list d)).*1 = seq 0 n.
Proof.
  intros Hdom. apply (Sorted_unique le).
  - apply (Sorted_fmap _ key_le); [done|]. apply (Sorted_merge_sort key_le).
  - apply Sorted_le_seq.
  - rewrite merge_sort_Permutation. apply NoDup_Permutation.
    + apply NoDup_fst_map_to_list.
    + apply NoDup_seq.
    + intros k. rewrite elem_of_seq, list_elem_of_fmap. split.
      * intros ([k' v] & -> & Hin%elem_of_map_to_list). simpl.
        assert (is_Some (d !! k')) as Hs%Hdom by eauto. lia.
      * intros [_ Hk]. simpl in Hk. apply Hdom in Hk as [v Hv].
        exists (k, v). split; [done|]. by apply elem_of_map_to_list.
Qed.

(** Row [i] of the matrix is the vector filed under [i]. *)
Lemma sorted_rows_lookup n (d : gmap nat (list Z)) i :
  (∀ i, is_Some (d !! i) ↔ (i < n)%nat) →
  sorted_rows d !! i = d !! i.
Proof.
  intros Hdom. pose proof (sorted_keys n d Hdom) as Hkeys.
  unfold sorted_rows. rewrite list_lookup_fmap.
  destruct (merge_sort key_le (map_to_list d) !! i) as [[k v]|] eqn:Hi; simpl.
  - assert ((merge_sort key_le (map_to_list d)).*1 !! i = Some k) as Hk
      by (by rewrite list_lookup_fmap, Hi).
    rewrite Hkeys in Hk. apply lookup_seq in Hk as [-> _]. simpl.
    symmetry. apply elem_of_map_to_list.
    rewrite <-(merge_sort_Permutation key_le). by eapply list_elem_of_lookup_2.
  - apply lookup_ge_None in Hi.
    assert (length (merge_sort key_le (map_to_list d)).*1 = n) as Hlen
      by (by rewrite Hkeys, length_seq).
    rewrite length_fmap in Hlen. symmetry. apply eq_None_not_Some.
    rewrite Hdom. lia.
Qed.

Lemma sorted_rows_length n (d : gmap nat (list Z)) :
  (∀ i, is_Some (d !! i) ↔ (i < n)%nat) → length (sorted_rows d) = n.
Proof.
  intros Hdom. unfold sorted_rows. rewrite length_fmap.
  rewrite <-(length_fmap fst), (sorted_keys n d Hdom). apply length_seq.
Qed.

(** What the completer does to a basis of [n - 1] vectors that satisfies the
    invariant. *)
Lemma complete_basis n w :
  n_qubits (self w) = n → basis_inv n (basis_of w) →
  Z.of_nat (size (basis_of w)) = Z.of_nat n - 1 →
  ∃ m, missing n (basis_of w) = [m] ∧ (m < n)%nat ∧ basis_of w !! m = None
     ∧ _add_missing_provenance_vector w
         = (Return m, with_dict (<[m := unit_vector n m]> (basis_of w)) w)
     ∧ basis_inv n (<[m := unit_vector n m]> (basis_of w))
     ∧ ∀ i, is_Some (<[m := unit_vector n m]> (basis_of w) !! i) ↔ (i < n)%nat.
Proof.
  intros Hn Hinv Hsz.
  destruct (missing_singleton n (basis_of w)) as [m Hm];
    [intros k; by apply basis_inv_key_lt|done|].
  assert (m ∈ missing n (basis_of w)) as [Hlt Hfree]%elem_of_missing
    by (rewrite Hm; left).
  exists m. split_and!; try done.
  - rewrite run_add_missing, Hn, Hm. reflexivity.
  - intros k v. rewrite lookup_insert. case_decide as Hk.
    + intros [= <-]. subst k.
      split; [apply unit_vector_bitvec|by apply unit_vector_msb].
    + apply Hinv.
  - intros i. rewrite lookup_insert. case_decide as Hi.
    + subst i. split; [done|eauto].
    + split; [by apply basis_inv_key_lt|]. intros Hin.
      destruct (basis_of w !! i) eqn:Hlk; [eauto|].
      assert (i ∈ missing n (basis_of w)) as Hmem by (by apply elem_of_missing).
      rewrite Hm in Hmem. apply list_elem_of_singleton in Hmem. congruence.
Qed.

(** ** Back substitution *)

Lemma dot_bit row m : Forall bit row → Forall bit m → bit (utils.dot row m).
Proof.
  intros Hrow. revert m. induction Hrow as [|a row Ha Hrow IH]; intros m Hm;
    [by left|].
  destruct Hm as [|b m Hb Hm]; simpl; [by left|].
  apply bit_lxor; [by apply bit_land|by apply IH].
Qed.

Lemma land_1_bit b : bit b → Z.land 1 b = b.
Proof. by intros [->| ->]. Qed.

(** Rows [i], [i+1], ... of an upper-triangular matrix with unit diagonal:
    the solved bits satisfy each of these rows' equations. *)
Lemma back_substitute_from_correct n W : ∀ s i,
  length W = length s → (i + length W = n)%nat → Forall bit s →
  (∀ j row, W !! j = Some row →
     bitvec n row ∧ utils.most_significant_bit row = Some (i + j)%nat) →
  length (utils.back_substitute_from i W s) = length W
  ∧ Forall bit (utils.back_substitute_from i W s)
  ∧ ∀ j row, W !! j = Some row →
      s !! j = Some (utils.dot (drop i row) (utils.back_substitute_from i W s)).
Proof.
  induction W as [|row0 W IH]; intros s i Hlen Hn Hs Hrows.
  - simpl. split_and!; [done|constructor|done].
  - destruct s as [|t s]; [done|]. apply Forall_cons in Hs as [Ht Hs].
    simpl in Hlen, Hn.
    destruct (IH s (S i)) as (IHlen & IHbits & IHeq);
      [lia|lia|done| |].
    { intros j row Hj. destruct (Hrows (S j) row Hj) as [Hb Hm].
      split; [done|]. rewrite Hm. f_equal. lia. }
    destruct (Hrows 0%nat row0 eq_refl) as [[Hl0 Hb0] Hm0].
    rewrite Nat.add_0_r in Hm0.
    cbn [utils.back_substitute_from].
    set (m' := utils.back_substitute_from (S i) W s) in *.
    assert (bit (utils.dot (drop (S i) row0) m')) as HX
      by (apply dot_bit; [by apply Forall_drop|done]).
    assert (bit (Z.lxor t (utils.dot (drop (S i) row0) m'))) as Hm0bit
      by (by apply bit_lxor).
    split_and!.
    + simpl. lia.
    + by constructor.
    + intros [|j] row Hj.
      * injection Hj as <-. cbn [lookup list_lookup].
        rewrite (drop_S row0 1 i) by (by apply msb_lookup).
        cbn [utils.dot]. rewrite land_1_bit by done.
        rewrite Z.lxor_assoc, Z.lxor_nilpotent, Z.lxor_0_r. done.
      * simpl in Hj. destruct (Hrows (S j) row Hj) as [[Hl Hb] Hm].
        cbn [lookup list_lookup]. change ((t :: s) !! S j) with (s !! j).
        rewrite (drop_S row 0 i)
          by (apply (msb_before row (i + S j)); [done|done|lia]).
        cbn [utils.dot]. rewrite Z.land_0_l, Z.lxor_0_l. by apply IHeq.
Qed.

Lemma binary_back_substitute_correct n W s :
  length W = n → bitvec n s →
  (∀ j row, W !! j = Some row →
     bitvec n row ∧ utils.most_significant_bit row = Some j) →
  bitvec n (utils.binary_back_substitute W s)
  ∧ mat_vec W (utils.binary_back_substitute W s) = s.
Proof.
  intros HW [Hls Hs] Hrows. unfold utils.binary_back_substitute.
  destruct (back_substitute_from_correct n W s 0%nat) as (Hlen & Hbits & Heq);
    [lia|lia|done|done|].
  split; [split; [lia|done]|].
  apply list_eq. intros j. unfold mat_vec. rewrite list_lookup_fmap.
  destruct (W !! j) as [row|] eqn:Hj; simpl.
  - rewrite (Heq j row Hj), drop_0. done.
  - symmetry. apply lookup_ge_None. apply lookup_ge_None in Hj. lia.
Qed.

(** ** The validator *)

Lemma check_key_world bm ms k w : (check_key bm ms k w).2 = w.
Proof.
  unfold check_key. rewrite run_bind. destruct (getitem bm k); simpl; [|done].
  rewrite run_bind. destruct (utils.bitwise_xor k ms) as [k'|]; simpl; [|done].
  rewrite run_bind. by destruct (getitem bm k').
Qed.

Lemma check_key_true bm ms k w :
  (check_key bm ms k w).1 = Return true ↔ same_value bm ms k.
Proof.
  unfold check_key, same_value. rewrite run_bind.
  destruct (getitem bm k) as [v|]; simpl; [|split; [done|]; by intros (?&?&?&?&?)].
  rewrite run_bind.
  destruct (utils.bitwise_xor k ms) as [k'|]; simpl;
    [|split; [done|]; by intros (?&?&?&?&?)].
  rewrite run_bind.
  destruct (getitem bm k') as [v'|] eqn:Hk'; simpl.
  - split.
    + intros [= Hb]. apply bool_decide_eq_true in Hb. subst v'. eauto.
    + intros (k2 & v2 & [= <-] & [= <-] & Hv). rewrite Hk' in Hv.
      injection Hv as ->. by rewrite bool_decide_eq_true_2.
  - split; [done|]. intros (k2 & v2 & [= <-] & _ & Hv). congruence.
Qed.

Lemma mapM_check_key_world bm ms ks w : (mapM (check_key bm ms) ks w).2 = w.
Proof.
  induction ks as [|k ks IH]; simpl; [done|].
  rewrite run_bind. pose proof (check_key_world bm ms k w) as Hw.
  destruct (check_key bm ms k w) as [[b|e|] w1]; simpl in Hw; subst w1; [|done..].
  rewrite run_bind.
  destruct (mapM (check_key bm ms) ks w) as [[bs|e|] w1]; simpl in IH; subst w1;
    done.
Qed.

Lemma mapM_check_key_true bm ms ks w :
  (∃ bs, (mapM (check_key bm ms) ks w).1 = Return bs ∧ forallb id bs = true)
  ↔ ∀ k, k ∈ ks → same_value bm ms k.
Proof.
  induction ks as [|k ks IH]; simpl.
  - split; [intros _ k Hk; by apply not_elem_of_nil in Hk|].
    intros _. by exists [].
  - rewrite run_bind. pose proof (check_key_world bm ms k w) as Hw.
    pose proof (check_key_true bm ms k w) as Hk.
    destruct (check_key bm ms k w) as [[b|e|] w1]; simpl in Hw, Hk; subst w1.
    + rewrite run_bind. pose proof (mapM_check_key_world bm ms ks w) as Hw.
      destruct (mapM (check_key bm ms) ks w) as [[bs|e|] w1];
        simpl in Hw, IH; subst w1; simpl.
      * split.
        -- intros (bs' & [= <-] & Hall). simpl in Hall.
           apply andb_true_iff in Hall as [Hb Hall]. unfold id in Hb. subst b.
           intros k' [->|Hin]%elem_of_cons; [by apply Hk|].
           apply IH; eauto.
        -- intros Hall. eexists; split; [done|]. simpl.
           apply andb_true_iff. split.
           ++ unfold id. assert (Return b = Return true) as [= ->]; [|done].
              apply Hk, Hall. left.
           ++ destruct (proj2 IH) as (bs' & [= <-] & Hbs); [|done].
              intros k' Hk'. apply Hall. by right.
      * split; [by intros (? & ? & _)|]. intros Hall.
        destruct (proj2 IH) as (? & ? & _); [|done].
        intros k' Hk'. apply Hall. by right.
      * split; [by intros (? & ? & _)|]. intros Hall.
        destruct (proj2 IH) as (? & ? & _); [|done].
        intros k' Hk'. apply Hall. by right.
    + split; [by intros (? & ? & _)|]. intros Hall.
      assert (Raise e = Return true :> outcome bool) as [=].
      apply Hk, Hall. left.
    + split; [by intros (? & ? & _)|]. intros Hall.
      assert (OutOfFuel = Return true :> outcome bool) as [=].
      apply Hk, Hall. left.
Qed.

Lemma run_check_mask_correct w m :
  mask (self w) = Some m →
  _check_mask_correct w =
  match mapM (check_key (bit_map (self w)) (join_str m)) (bit_map (self w)).*1 w with
  | (Return bs, _) => (Return (forallb id bs), w)
  | (Raise e, _) => (Raise e, w)
  | (OutOfFuel, _) => (OutOfFuel, w)
  end.
Proof.
  intros Hm. unfold _check_mask_correct.
  rewrite run_bind, run_attr, Hm, run_bind, run_or_raise_Some.
  rewrite run_bind, run_attr, run_bind.
  pose proof (mapM_check_key_world (bit_map (self w)) (join_str m)
                (bit_map (self w)).*1 w) as Hw.
  destruct (mapM (M:=M) _ _ w) as [[bs|e|] w1]; simpl in Hw; by subst w1.
Qed.

Lemma check_mask_correct_world w : (_check_mask_correct w).2 = w.
Proof.
  destruct (mask (self w)) as [m|] eqn:Hm.
  - rewrite (run_check_mask_correct w m Hm). by destruct (mapM (M:=M) _ _ w) as [[?|?|] ?].
  - unfold _check_mask_correct. by rewrite run_bind, run_attr, Hm, run_bind.
Qed.

(** ** Which exceptions the stages raise *)

Lemma npe_bind {A B} (m : M A) (f : A → M B) w :
  no_plain_exception (m w).1 → (∀ a w', no_plain_exception (f a w').1) →
  no_plain_exception ((m ≫= f) w).1.
Proof.
  intros Hm Hf. rewrite run_bind. destruct (m w) as [[a|e|] w']; simpl in *;
    [apply Hf|done..].
Qed.

Lemma npe_mapM {A B} (f : A → M B) l :
  (∀ a w, no_plain_exception (f a w).1) →
  ∀ w, no_plain_exception (mapM f l w).1.
Proof.
  intros Hf. induction l as [|a l IH]; intros w; simpl; [done|].
  apply npe_bind; [apply Hf|]. intros b w'.
  apply npe_bind; [apply IH|]. done.
Qed.

Lemma npe_or_raise {A} e (o : option A) w :
  no_plain_exception (Raise e : outcome A) →
  no_plain_exception (or_raise e o w).1.
Proof. by destruct o. Qed.

Ltac npe_step :=
  match goal with
  | |- no_plain_exception ((_ ≫= _) _).1 => apply npe_bind; [|intros ??]
  | |- no_plain_exception (mapM _ _ _).1 => apply npe_mapM; intros ??
  | |- no_plain_exception (or_raise _ _ _).1 => by apply npe_or_raise
  | |- no_plain_exception ((if decide ?P then _ else _) _).1 =>
      destruct (decide P)
  | |- _ => done
  end.

Lemma npe_compute_unitary_oracle_matrix bm w :
  no_plain_exception (_compute_unitary_oracle_matrix bm w).1.
Proof.
  unfold _compute_unitary_oracle_matrix, oracle_entry. repeat npe_step.
Qed.

Lemma npe_init_attr bm w : no_plain_exception (_init_attr bm w).1.
Proof.
  unfold _init_attr, _construct_simon_circuit.
  repeat (npe_step || apply npe_compute_unitary_oracle_matrix).
Qed.

Lemma npe_add z w :
  no_plain_exception (_add_to_dict_of_indep_bit_vectors z w).1.
Proof.
  destruct (add_frame z w) as (r & d' & -> & [-> | ->] & _); done.
Qed.

Lemma npe_sample fuel cxn : ∀ w,
  no_plain_exception (_sample_independent_bit_vectors fuel cxn w).1.
Proof.
  induction fuel as [|fuel IH]; intros w; simpl;
    repeat (npe_step || apply npe_add || apply IH).
Qed.

Lemma npe_invert_mask_equation w :
  no_plain_exception (_invert_mask_equation w).1.
Proof.
  unfold _invert_mask_equation. apply npe_bind; [|intros ??; repeat npe_step].
  rewrite run_add_missing. by destruct (last _).
Qed.

Lemma npe_check_mask_correct w : no_plain_exception (_check_mask_correct w).1.
Proof. unfold _check_mask_correct, check_key. repeat npe_step. Qed.

(** The first three stages of [find_mask] in sequence raise no plain
    [Exception] either. *)
Lemma npe_solve fuel cxn bm w :
  no_plain_exception
    ((_init_attr bm;; _sample_independent_bit_vectors fuel cxn;;
      _invert_mask_equation) w).1.
Proof.
  apply npe_bind; [apply npe_init_attr|]. intros [] w1.
  apply npe_bind; [apply npe_sample|]. intros [] w2.
  apply npe_invert_mask_equation.
Qed.

(** [find_mask] on a [dict], with the first three stages taken together. *)
Lemma run_find_mask fuel cxn bm w :
  find_mask fuel cxn (PyDict bm) w =
  match (_init_attr bm;; _sample_independent_bit_vectors fuel cxn;;
         _invert_mask_equation) w with
  | (Return _, w1) =>
      match _check_mask_correct w1 with
      | (Return true, w2) => (Return (mask (self w2)), w2)
      | (Return false, w2) => (Raise (PyException "No valid mask found"), w2)
      | (Raise e, w2) => (Raise e, w2)
      | (OutOfFuel, w2) => (OutOfFuel, w2)
      end
  | (Raise e, w1) => (Raise e, w1)
  | (OutOfFuel, w1) => (OutOfFuel, w1)
  end.
Proof.
  unfold find_mask. rewrite !run_bind.
  destruct (_init_attr bm w) as [[[]|e|] w1]; [|done..].
  rewrite !run_bind.
  destruct (_sample_independent_bit_vectors fuel cxn w1) as [[[]|e|] w2]; [|done..].
  rewrite !run_bind.
  destruct (_invert_mask_equation w2) as [[[]|e|] w3]; [|done..].
  rewrite run_bind.
  destruct (_check_mask_correct w3) as [[[]|e|] w4]; done.
Qed.

(** ** The run on [table_110] *)

Lemma init_110 w : _init_attr table_110 w = (Return (), st_110 ∅ (cxn_calls w)).
Proof. destruct w as [s c]. vm_compute. reflexivity. Qed.

Lemma consistent_110 z :
  consistent [1; 1; 0] z →
  z = [0; 0; 0] ∨ z = [0; 0; 1] ∨ z = [1; 1; 0] ∨ z = [1; 1; 1].
Proof.
  intros [[Hlen Hbits] Hdot].
  destruct z as [|a [|b [|c [|? ?]]]]; try done.
  apply Forall_cons in Hbits as [Ha Hbits].
  apply Forall_cons in Hbits as [Hb Hbits].
  apply Forall_cons in Hbits as [Hc _].
  destruct Ha as [->| ->], Hb as [->| ->], Hc as [->| ->]; auto; done.
Qed.

Lemma add_110 a b z c :
  consistent [1; 1; 0] z →
  _add_to_dict_of_indep_bit_vectors z (st_110 (basis_110 a b) c) =
    (Return PyNone,
     st_110 (basis_110 (a || bool_decide (z = [0; 0; 1]))
                       (b || bool_decide (z = [1; 1; 0]))) c).
Proof.
  intros [->|[->|[->| ->]]]%consistent_110; destruct a, b;
    vm_compute; reflexivity.
Qed.

Lemma drawn_S cxn v c :
  drawn cxn v (S c) = drawn cxn v c || bool_decide (cxn c = v).
Proof.
  unfold drawn. rewrite seq_S, existsb_app. simpl. by rewrite orb_false_r.
Qed.

Lemma drawn_mono cxn v c c' :
  (c ≤ c')%nat → drawn cxn v c = true → drawn cxn v c' = true.
Proof.
  induction 1 as [|c' Hle IH]; [done|]. intros Hc.
  rewrite drawn_S, IH by done. done.
Qed.

Lemma drawn_intro cxn v i : cxn i = v → drawn cxn v (S i) = true.
Proof.
  intros Hi. rewrite drawn_S, (bool_decide_eq_true_2 _ Hi). apply orb_true_r.
Qed.

(** The sampling loop leaves with both vectors stored as soon as both have
    been drawn. *)
Lemma sample_110 cxn N :
  (∀ i, consistent [1; 1; 0] (cxn i)) →
  drawn cxn [0; 0; 1] N = true → drawn cxn [1; 1; 0] N = true →
  ∀ fuel c, (N ≤ c + fuel)%nat →
  ∃ c', _sample_independent_bit_vectors fuel cxn
          (st_110 (basis_110 (drawn cxn [0; 0; 1] c) (drawn cxn [1; 1; 0] c)) c)
        = (Return (), st_110 (basis_110 true true) c').
Proof.
  intros Hcons HA HB. induction fuel as [|fuel IH]; intros c HN.
  - rewrite (drawn_mono cxn _ N c), (drawn_mono cxn _ N c) by (done || lia).
    exists c. vm_compute. reflexivity.
  - destruct (drawn cxn [0; 0; 1] c && drawn cxn [1; 1; 0] c) eqn:Hboth.
    + apply andb_true_iff in Hboth as [-> ->]. exists c. vm_compute. reflexivity.
    + destruct (IH (S c) ltac:(lia)) as [c' Hrun]. exists c'.
      rewrite !drawn_S in Hrun.
      set (a := drawn cxn [0; 0; 1] c) in *.
      set (b := drawn cxn [1; 1; 0] c) in *.
      cbn [_sample_independent_bit_vectors].
      rewrite run_bind, run_attr, run_bind, run_attr.
      assert (Z.of_nat (size (basis_of (st_110 (basis_110 a b) c)))
              < Z.of_nat (n_qubits (self (st_110 (basis_110 a b) c))) - 1) as Hlt.
      { destruct a, b; try done; vm_compute; reflexivity. }
      rewrite decide_True by exact Hlt.
      rewrite run_bind. unfold run_and_measure at 1. cbn [self cxn_calls st_110].
      rewrite run_bind.
      change (mkWorld (set_dict (basis_110 a b) simon_110) (S c))
        with (st_110 (basis_110 a b) (S c)).
      rewrite (add_110 a b (cxn c) (S c) (Hcons c)). exact Hrun.
Qed.

Lemma invert_110 c :
  _invert_mask_equation (st_110 (basis_110 true true) c) =
  (Return (),
   mkWorld (set_mask (Some [1; 1; 0])
              (set_dict (<[1%nat := [0; 1; 0]]> (basis_110 true true)) simon_110))
           c).
Proof. vm_compute. reflexivity. Qed.

Lemma check_110 w :
  bit_map (self w) = table_110 → mask (self w) = Some [1; 1; 0] →
  _check_mask_correct w = (Return true, w).
Proof.
  intros Hbm Hm. rewrite (run_check_mask_correct w _ Hm), Hbm.
  vm_compute. reflexivity.
Qed.

Lemma basis_inv_110 a b : basis_inv 3 (basis_110 a b).
Proof.
  intros k v Hkv.
  assert ((k = 2%nat ∧ v = [0; 0; 1]) ∨ (k = 0%nat ∧ v = [1; 1; 0])) as Hcases.
  { unfold basis_110 in Hkv. destruct a, b; simpl in Hkv;
      repeat (rewrite lookup_insert in Hkv; case_decide; simplify_eq; auto);
      by rewrite lookup_empty in Hkv. }
  destruct Hcases as [[-> ->]|[-> ->]]; (split; [split|]);
    try reflexivity; repeat constructor; (by left) || (by right).
Qed.

Lemma missing_S n d :
  missing (S n) d = missing n d ++ (if decide (n ∈ dom d) then [] else [n]).
Proof.
  unfold missing. rewrite seq_S, filter_app. f_equal. simpl.
  rewrite filter_cons, filter_nil. destruct (decide (n ∈ dom d)).
  - by rewrite decide_False by (intros H; by apply H).
  - by rewrite decide_True.
Qed.

Lemma last_missing_spec n d :
  match last (missing n d) with
  | None => ∀ idx, (idx < n)%nat → is_Some (d !! idx)
  | Some m => (m < n)%nat ∧ d !! m = None
              ∧ ∀ idx, (m < idx < n)%nat → is_Some (d !! idx)
  end.
Proof.
  induction n as [|n IH].
  - simpl. intros idx Hidx. lia.
  - rewrite missing_S. destruct (decide (n ∈ dom d)) as [Hin|Hnin].
    + rewrite app_nil_r. apply elem_of_dom in Hin.
      destruct (last (missing n d)) as [m|].
      * destruct IH as (Hm & Hfree & Hrest). split_and!; [lia|done|].
        intros idx Hidx. destruct (decide (idx = n)) as [->|]; [done|].
        apply Hrest. lia.
      * intros idx Hidx. destruct (decide (idx = n)) as [->|]; [done|].
        apply IH. lia.
    + rewrite last_snoc. apply not_elem_of_dom in Hnin.
      split_and!; [lia|done|]. intros idx Hidx. lia.
Qed.

(** [_invert_mask_equation] on a basis of [n - 1] vectors satisfying the
    invariant: the mask it stores solves the completed system for the unit
    vector of the missing provenance. *)
Lemma invert_mask_equation_solves n w :
  n_qubits (self w) = n → basis_inv n (basis_of w) →
  Z.of_nat (size (basis_of w)) = Z.of_nat n - 1 →
  ∃ m_prov d' m,
    missing n (basis_of w) = [m_prov]
    ∧ d' = <[m_prov := unit_vector n m_prov]> (basis_of w)
    ∧ _invert_mask_equation w
      = (Return (), mkWorld (set_mask (Some m) (set_dict d' (self w)))
                      (cxn_calls w))
    ∧ bitvec n m
    ∧ mat_vec (sorted_rows d') m = unit_vector n m_prov.
Proof.
  intros Hn Hinv Hsz.
  destruct (complete_basis n w Hn Hinv Hsz)
    as (m_prov & Hmiss & _ & _ & Hrun & Hinv' & Hdom).
  destruct (binary_back_substitute_correct n
              (sorted_rows (<[m_prov:=unit_vector n m_prov]> (basis_of w)))
              (unit_vector n m_prov)) as [Hbv Heq].
  - by apply sorted_rows_length.
  - apply unit_vector_bitvec.
  - intros j row. rewrite (sorted_rows_lookup n) by done. apply Hinv'.
  - eexists m_prov, _, _. split_and!; [done|reflexivity| |exact Hbv|exact Heq].
    unfold _invert_mask_equation.
    rewrite run_bind, Hrun, run_bind, run_attr, run_bind, run_attr.
    cbn [self with_dict n_qubits set_dict]. rewrite Hn. reflexivity.
Qed.

(** * The claims *)

(** C1, as the code has it.  End-to-end round trip on the truth table
    [{000:101, 001:010, 010:000, 011:110, 100:000, 101:110, 110:101, 111:010}]
    of hidden mask [110].  Whatever the object held before, on a fresh
    connection whose answers are all consistent with the function (bit
    vectors of length 3 orthogonal to [110]) and among which two different
    ones are neither all zero nor all ones, [find_mask] returns the mask
    [[1,1,0]] for every sufficiently large number of loop iterations allowed;
    and the check of [[1,1,0]] against that table returns [True]. *)
Theorem round_trip_110 (cxn : nat → list Z) (s : Simon) :
  (∀ i, consistent [1; 1; 0] (cxn i)) →
  (∃ i j, degenerate (cxn i) = false ∧ degenerate (cxn j) = false
          ∧ cxn i ≠ cxn j) →
  (∃ N, ∀ fuel, (N ≤ fuel)%nat →
     (find_mask fuel cxn (PyDict table_110) (mkWorld s 0)).1
       = Return (Some [1; 1; 0]))
  ∧ (∀ w, bit_map (self w) = table_110 → mask (self w) = Some [1; 1; 0] →
       _check_mask_correct w = (Return true, w)).
Proof.
  intros Hcons (i & j & Hi & Hj & Hij). split; [|apply check_110].
  assert (∃ i j, cxn i = [0; 0; 1] ∧ cxn j = [1; 1; 0]) as (i' & j' & Hi' & Hj').
  { destruct (consistent_110 _ (Hcons i)) as [Ei|[Ei|[Ei|Ei]]];
      destruct (consistent_110 _ (Hcons j)) as [Ej|[Ej|[Ej|Ej]]];
      rewrite Ei in Hi; rewrite Ej in Hj; try discriminate;
      try (exfalso; apply Hij; congruence); eauto. }
  exists (S (i' `max` j')). intros fuel Hfuel.
  destruct (sample_110 cxn (S (i' `max` j')) Hcons) with (fuel := fuel) (c := 0%nat)
    as [c' Hrun].
  - apply (drawn_mono cxn _ (S i')); [lia|by apply drawn_intro].
  - apply (drawn_mono cxn _ (S j')); [lia|by apply drawn_intro].
  - lia.
  - rewrite run_find_mask, run_bind, init_110, run_bind.
    change (st_110 ∅ (cxn_calls (mkWorld s 0)))
      with (st_110 (basis_110 (drawn cxn [0; 0; 1] 0) (drawn cxn [1; 1; 0] 0)) 0).
    rewrite Hrun, invert_110, check_110 by reflexivity. reflexivity.
Qed.

Lemma round_trip_110_witness :
  (∃ N, ∀ fuel, (N ≤ fuel)%nat →
     (find_mask fuel cxn_001_110 (PyDict table_110) (mkWorld Simon_new 0)).1
       = Return (Some [1; 1; 0]))
  ∧ (∀ w, bit_map (self w) = table_110 → mask (self w) = Some [1; 1; 0] →
       _check_mask_correct w = (Return true, w)).
Proof.
  apply (round_trip_110 cxn_001_110 Simon_new).
  - intros i. unfold cxn_001_110. destruct (decide (i = 0%nat));
      (split; [split|]); try reflexivity; repeat constructor;
      (by left) || (by right).
  - exists 0%nat, 1%nat. split_and!; [reflexivity|reflexivity|discriminate].
Defined.

Lemma sample_110_starved cxn :
  (∀ i, cxn i = [0; 0; 1] ∨ cxn i = [1; 1; 1]) →
  ∀ fuel a c,
    (_sample_independent_bit_vectors fuel cxn
       (st_110 (basis_110 a false) c)).1 = OutOfFuel.
Proof.
  intros Hcxn. induction fuel as [|fuel IH]; intros a c.
  - destruct a; vm_compute; reflexivity.
  - cbn [_sample_independent_bit_vectors].
    rewrite run_bind, run_attr, run_bind, run_attr.
    assert (Z.of_nat (size (basis_of (st_110 (basis_110 a false) c)))
            < Z.of_nat (n_qubits (self (st_110 (basis_110 a false) c))) - 1)
      as Hlt by (destruct a; vm_compute; reflexivity).
    rewrite decide_True by exact Hlt.
    rewrite run_bind. unfold run_and_measure at 1. cbn [self cxn_calls st_110].
    rewrite run_bind.
    change (mkWorld (set_dict (basis_110 a false) simon_110) (S c))
      with (st_110 (basis_110 a false) (S c)).
    rewrite add_110.
    + rewrite (bool_decide_eq_false_2 (cxn c = [1; 1; 0])); [apply IH|].
      destruct (Hcxn c) as [-> | ->]; discriminate.
    + destruct (Hcxn c) as [-> | ->]; (split; [split|]);
        try reflexivity; repeat constructor; (by left) || (by right).
Qed.

(** C1, as stated, fails: the stream 001, 111, 001, 111, ... supplies two
    linearly independent samples consistent with the function (they span
    the whole space orthogonal to [110]), but the accumulator discards the
    all-ones sample, the basis never holds two vectors and [find_mask] does
    not return, however many iterations it is allowed. *)
Lemma round_trip_starved_by_all_ones :
  (∀ i, consistent [1; 1; 0] (cxn_001_111 i))
  ∧ cxn_001_111 0 = [0; 0; 1] ∧ cxn_001_111 1 = [1; 1; 1]
  ∧ (∀ vs, vs ∈ [[cxn_001_111 0]; [cxn_001_111 1];
                 [cxn_001_111 0; cxn_001_111 1]] →
       xor_sum 3 vs ≠ replicate 3 0)
  ∧ (∀ fuel,
       (find_mask fuel cxn_001_111 (PyDict table_110) world0).1 = OutOfFuel).
Proof.
  assert (∀ i, cxn_001_111 i = [0; 0; 1] ∨ cxn_001_111 i = [1; 1; 1]) as Hcxn.
  { intros i. unfold cxn_001_111. destruct (Nat.even i); auto. }
  split_and!; try reflexivity.
  - intros i. destruct (Hcxn i) as [-> | ->]; (split; [split|]);
      try reflexivity; repeat constructor; (by left) || (by right).
  - intros vs Hvs. repeat (apply elem_of_cons in Hvs as [->|Hvs]; [done|]).
    by apply not_elem_of_nil in Hvs.
  - intros fuel. rewrite run_find_mask, run_bind, init_110, run_bind.
    pose proof (sample_110_starved cxn_001_111 Hcxn fuel false 0%nat) as Hs.
    change (st_110 ∅ (cxn_calls world0)) with (st_110 (basis_110 false false) 0).
    destruct (_sample_independent_bit_vectors fuel _ _) as [[[]|e|] w1];
      simpl in Hs; done.
Qed.

(** C2.  Solver correctness.  Let [W] be the matrix that the completion step
    produces from a basis of [n - 1] vectors satisfying the basis invariant:
    the vectors of the completed basis read in increasing key order.  For
    every unit target vector [e_i], [i < n], back substitution returns a bit
    vector [m] of length [n] with [W · m = e_i] over GF(2). *)
Theorem solver_correct (n : nat) (w : world) (i : nat) :
  n_qubits (self w) = n → basis_inv n (basis_of w) →
  Z.of_nat (size (basis_of w)) = Z.of_nat n - 1 → (i < n)%nat →
  ∃ missing_prov w',
    _add_missing_provenance_vector w = (Return missing_prov, w')
    ∧ length (utils.binary_back_substitute (sorted_rows (basis_of w'))
                (unit_vector n i)) = n
    ∧ Forall bit (utils.binary_back_substitute (sorted_rows (basis_of w'))
                    (unit_vector n i))
    ∧ mat_vec (sorted_rows (basis_of w'))
        (utils.binary_back_substitute (sorted_rows (basis_of w'))
           (unit_vector n i))
      = unit_vector n i.
Proof.
  intros Hn Hinv Hsz Hi.
  destruct (complete_basis n w Hn Hinv Hsz)
    as (m & _ & _ & _ & Hrun & Hinv' & Hdom).
  eexists _, _. split; [exact Hrun|]. rewrite basis_of_with_dict.
  destruct (binary_back_substitute_correct n
              (sorted_rows (<[m:=unit_vector n m]> (basis_of w)))
              (unit_vector n i)) as [[Hlen Hbits] Heq].
  - by apply sorted_rows_length.
  - apply unit_vector_bitvec.
  - intros j row. rewrite (sorted_rows_lookup n) by done. apply Hinv'.
  - done.
Qed.

Lemma solver_correct_witness :
  ∃ missing_prov w',
    _add_missing_provenance_vector (st_110 (basis_110 true true) 2)
      = (Return missing_prov, w')
    ∧ length (utils.binary_back_substitute (sorted_rows (basis_of w'))
                (unit_vector 3 1)) = 3%nat
    ∧ Forall bit (utils.binary_back_substitute (sorted_rows (basis_of w'))
                    (unit_vector 3 1))
    ∧ mat_vec (sorted_rows (basis_of w'))
        (utils.binary_back_substitute (sorted_rows (basis_of w'))
           (unit_vector 3 1))
      = unit_vector 3 1.
Proof.
  apply (solver_correct 3 (st_110 (basis_110 true true) 2) 1).
  - reflexivity.
  - apply basis_inv_110.
  - reflexivity.
  - lia.
Defined.

(** C3.  Basis invariant.  After any sequence of calls of
    [_add_to_dict_of_indep_bit_vectors] on bit vectors of length [n],
    starting from an empty basis, every call has returned, every stored
    vector is filed under its own leading-one index, no two stored vectors
    share a leading-one index, and the stored vectors are linearly
    independent over GF(2). *)
Theorem basis_invariant (n : nat) (zs : list (list Z)) (w : world) :
  basis_of w = ∅ → Forall (bitvec n) zs →
  ∃ d, mapM _add_to_dict_of_indep_bit_vectors zs w
         = (Return (replicate (length zs) PyNone), with_dict d w)
     ∧ (∀ k v, d !! k = Some v → utils.most_significant_bit v = Some k)
     ∧ (∀ k1 k2 v1 v2, d !! k1 = Some v1 → d !! k2 = Some v2 →
          utils.most_significant_bit v1 = utils.most_significant_bit v2 →
          k1 = k2)
     ∧ lin_indep n d.
Proof.
  intros Hempty Hzs.
  destruct (add_all_inv n zs w) as (d & Hrun & Hinv); [|done|].
  { rewrite Hempty. apply basis_inv_empty. }
  exists d. split_and!; [done| | |by apply basis_inv_lin_indep].
  - intros k v Hkv. by apply Hinv.
  - intros k1 k2 v1 v2 H1 H2 Heq.
    apply Hinv in H1 as [_ H1]. apply Hinv in H2 as [_ H2]. congruence.
Qed.

Lemma basis_invariant_witness :
  ∃ d, mapM _add_to_dict_of_indep_bit_vectors
         [[0; 0; 1]; [1; 1; 1]; [1; 1; 0]; [1; 0; 0]; [1; 0; 1]] world0
         = (Return (replicate 5 PyNone), with_dict d world0)
     ∧ (∀ k v, d !! k = Some v → utils.most_significant_bit v = Some k)
     ∧ (∀ k1 k2 v1 v2, d !! k1 = Some v1 → d !! k2 = Some v2 →
          utils.most_significant_bit v1 = utils.most_significant_bit v2 →
          k1 = k2)
     ∧ lin_indep 3 d.
Proof.
  apply (basis_invariant 3
           [[0; 0; 1]; [1; 1; 1]; [1; 1; 0]; [1; 0; 0]; [1; 0; 1]] world0).
  - reflexivity.
  - repeat constructor; (by left) || (by right).
Defined.

(** C4.  Triangular completeness.  On a basis of exactly [n - 1] vectors
    satisfying the basis invariant, the completion step succeeds; exactly one
    index of [0..n-1] was missing, the vector it inserts is the unit vector
    at that index, and the completed basis read in increasing key order has
    exactly [n] vectors whose leading-one indices are [0, 1, ..., n-1] in
    this order. *)
Theorem triangular_completeness (n : nat) (w : world) :
  n_qubits (self w) = n → basis_inv n (basis_of w) →
  Z.of_nat (size (basis_of w)) = Z.of_nat n - 1 →
  ∃ m w',
    _add_missing_provenance_vector w = (Return m, w')
    ∧ missing n (basis_of w) = [m]
    ∧ basis_of w' = <[m := unit_vector n m]> (basis_of w)
    ∧ length (sorted_rows (basis_of w')) = n
    ∧ utils.most_significant_bit <$> sorted_rows (basis_of w')
      = Some <$> seq 0 n.
Proof.
  intros Hn Hinv Hsz.
  destruct (complete_basis n w Hn Hinv Hsz)
    as (m & Hmiss & _ & _ & Hrun & Hinv' & Hdom).
  eexists _, _. split; [exact Hrun|]. rewrite basis_of_with_dict.
  pose proof (sorted_rows_length n _ Hdom) as Hlen.
  split_and!; [done..|].
  apply list_eq. intros i. rewrite !list_lookup_fmap.
  rewrite (sorted_rows_lookup n) by done.
  destruct (decide (i < n)%nat) as [Hi|Hi].
  - rewrite lookup_seq_lt by done. apply Hdom in Hi as [v Hv].
    rewrite Hv. simpl. f_equal. by apply Hinv'.
  - rewrite lookup_seq_ge by lia.
    destruct (<[m:=unit_vector n m]> (basis_of w) !! i) eqn:Hlk; [|done].
    exfalso. apply Hi, Hdom. eauto.
Qed.

Lemma triangular_completeness_witness :
  ∃ m w',
    _add_missing_provenance_vector (st_110 (basis_110 true true) 2)
      = (Return m, w')
    ∧ missing 3 (basis_of (st_110 (basis_110 true true) 2)) = [m]
    ∧ basis_of w'
      = <[m := unit_vector 3 m]> (basis_of (st_110 (basis_110 true true) 2))
    ∧ length (sorted_rows (basis_of w')) = 3%nat
    ∧ utils.most_significant_bit <$> sorted_rows (basis_of w')
      = Some <$> seq 0 3.
Proof.
  apply (triangular_completeness 3 (st_110 (basis_110 true true) 2)).
  - reflexivity.
  - apply basis_inv_110.
  - reflexivity.
Defined.

(** C5.  Validator correctness.  For every mask and every truth table held
    by the object, [_check_mask_correct] changes nothing and returns [True]
    if and only if, for every key [k] of the table, [k XOR mask] is a key of
    the table and [table[k] == table[k XOR mask]]. *)
Theorem validator_correct (w : world) (m : list Z) :
  mask (self w) = Some m →
  (_check_mask_correct w).2 = w
  ∧ ((_check_mask_correct w).1 = Return true
     ↔ ∀ k, k ∈ (bit_map (self w)).*1 →
         ∃ k' v, utils.bitwise_xor k (join_str m) = Some k'
                 ∧ getitem (bit_map (self w)) k = Some v
                 ∧ getitem (bit_map (self w)) k' = Some v).
Proof.
  intros Hm. split; [apply check_mask_correct_world|].
  rewrite (run_check_mask_correct w m Hm).
  pose proof (mapM_check_key_true (bit_map (self w)) (join_str m)
                (bit_map (self w)).*1 w) as Hiff.
  unfold same_value in Hiff. rewrite <-Hiff.
  destruct (mapM (M:=M) _ _ w) as [[bs|e|] w1]; simpl.
  - split.
    + intros [= Hall]. eauto.
    + intros (bs' & [= <-] & Hall). by rewrite Hall.
  - split; [done|]. by intros (? & ? & _).
  - split; [done|]. by intros (? & ? & _).
Qed.

Lemma validator_correct_witness :
  (_check_mask_correct
     (mkWorld (set_mask (Some [1; 1; 0]) simon_110) 0)).2
  = mkWorld (set_mask (Some [1; 1; 0]) simon_110) 0
  ∧ ((_check_mask_correct
        (mkWorld (set_mask (Some [1; 1; 0]) simon_110) 0)).1 = Return true
     ↔ ∀ k, k ∈ (bit_map (self
                   (mkWorld (set_mask (Some [1; 1; 0]) simon_110) 0))).*1 →
         ∃ k' v, utils.bitwise_xor k (join_str [1; 1; 0]) = Some k'
                 ∧ getitem (bit_map (self
                     (mkWorld (set_mask (Some [1; 1; 0]) simon_110) 0))) k
                   = Some v
                 ∧ getitem (bit_map (self
                     (mkWorld (set_mask (Some [1; 1; 0]) simon_110) 0))) k'
                   = Some v).
Proof.
  apply (validator_correct
           (mkWorld (set_mask (Some [1; 1; 0]) simon_110) 0) [1; 1; 0]).
  reflexivity.
Defined.

(** C6, as the code has it.  The completion step raises its [ValueError]
    exactly when no index of [0..n-1] is missing from the basis.  Whenever at
    least one index is missing it succeeds: it files the unit vector under
    the largest missing index and returns that index, without checking that
    no other index is missing. *)
Theorem completer_contract (w : world) :
  match last (missing (n_qubits (self w)) (basis_of w)) with
  | None =>
      (∀ idx, (idx < n_qubits (self w))%nat → is_Some (basis_of w !! idx))
      ∧ _add_missing_provenance_vector w
        = (Raise (ValueError "Expected a missing provenance, but didn't find one."),
           w)
  | Some m =>
      (m < n_qubits (self w))%nat ∧ basis_of w !! m = None
      ∧ (∀ idx, (m < idx < n_qubits (self w))%nat → is_Some (basis_of w !! idx))
      ∧ _add_missing_provenance_vector w
        = (Return m,
           with_dict (<[m := unit_vector (n_qubits (self w)) m]> (basis_of w)) w)
  end.
Proof.
  pose proof (last_missing_spec (n_qubits (self w)) (basis_of w)) as Hspec.
  pose proof (run_add_missing w) as Hrun.
  destruct (last (missing (n_qubits (self w)) (basis_of w))) as [m|].
  - destruct Hspec as (? & ? & ?). done.
  - done.
Qed.

(** C6, as stated, fails: with [n = 3] and only the vector [110] stored, the
    indices 1 and 2 are both missing, and the completion step does not fail
    but returns 2. *)
Lemma completer_accepts_two_missing :
  missing 3 (basis_of (st_110 (basis_110 false true) 1)) = [1%nat; 2%nat]
  ∧ n_qubits (self (st_110 (basis_110 false true) 1)) = 3%nat
  ∧ _add_missing_provenance_vector (st_110 (basis_110 false true) 1)
    = (Return 2%nat,
       st_110 (<[2%nat := [0; 0; 1]]> (basis_110 false true)) 1).
Proof. split_and!; vm_compute; reflexivity. Qed.

(** C7, as the code has it.  On a bit vector of length [n] and a basis
    satisfying the invariant, [_add_to_dict_of_indep_bit_vectors] returns
    [None], never a boolean; the call either leaves the basis as it was or
    increases its cardinality by one. *)
Theorem add_returns_none (n : nat) (z : list Z) (w : world) :
  basis_inv n (basis_of w) → bitvec n z →
  ∃ d', _add_to_dict_of_indep_bit_vectors z w = (Return PyNone, with_dict d' w)
        ∧ (d' = basis_of w ∨ size d' = S (size (basis_of w))).
Proof.
  intros Hinv Hz. destruct (add_step n z w Hinv Hz) as (d' & Hrun & _ & Hgrow).
  exists d'. split; [done|]. by apply grown_subseteq.
Qed.

Lemma add_returns_none_witness :
  ∃ d', _add_to_dict_of_indep_bit_vectors [1; 0; 1]
          (st_110 (basis_110 false true) 1)
        = (Return PyNone, with_dict d' (st_110 (basis_110 false true) 1))
        ∧ (d' = basis_of (st_110 (basis_110 false true) 1)
           ∨ size d' = S (size (basis_of (st_110 (basis_110 false true) 1)))).
Proof.
  apply (add_returns_none 3 [1; 0; 1] (st_110 (basis_110 false true) 1)).
  - apply basis_inv_110.
  - split; [reflexivity|]. repeat constructor; (by left) || (by right).
Defined.

(** C7, as stated, fails: the call below adds a new independent dimension
    (the cardinality of the basis goes from 0 to 1) and its return value is
    [None], not [True]. *)
Lemma add_gain_returns_none :
  (_add_to_dict_of_indep_bit_vectors [1; 1; 0] (st_110 ∅ 1)).1 = Return PyNone
  ∧ size (basis_of (st_110 ∅ 1)) = 0%nat
  ∧ size (basis_of (_add_to_dict_of_indep_bit_vectors [1; 1; 0] (st_110 ∅ 1)).2)
    = 1%nat
  ∧ (_add_to_dict_of_indep_bit_vectors [1; 1; 0] (st_110 ∅ 1)).1
    ≠ Return (PyBool true).
Proof. split_and!; try (vm_compute; reflexivity). discriminate. Qed.

(** C8.  Rejection property.  For every [n] and every state, the all-zero
    and the all-ones vector of length [n] leave everything as it was, the
    basis included, and the call returns without raising. *)
Theorem add_rejects_degenerate (n : nat) (w : world) :
  _add_to_dict_of_indep_bit_vectors (replicate n 0) w = (Return PyNone, w)
  ∧ _add_to_dict_of_indep_bit_vectors (replicate n 1) w = (Return PyNone, w).
Proof.
  unfold _add_to_dict_of_indep_bit_vectors.
  rewrite (all_eq_replicate 0 n), (all_eq_replicate 1 n), orb_true_r. done.
Qed.

(** C9.  Orchestrator error contract.  Given anything but a [dict],
    [find_mask] raises its [ValueError] with nothing changed, the number of
    calls on the connection included.  Given a [dict], it raises "No valid
    mask found" if and only if the first three stages have produced a mask
    and the check of that mask returns [False]; and it returns a value if and
    only if they have produced a mask and the check returns [True], the value
    being that mask. *)
Theorem find_mask_contract (fuel : nat) (cxn : nat → list Z) (obj : pyobj)
    (w : world) :
  match obj with
  | PyDict bitstring_map =>
      ((find_mask fuel cxn obj w).1 = Raise (PyException "No valid mask found")
       ↔ ∃ w1, (_init_attr bitstring_map;;
                _sample_independent_bit_vectors fuel cxn;;
                _invert_mask_equation) w = (Return (), w1)
               ∧ (_check_mask_correct w1).1 = Return false)
      ∧ (∀ r, (find_mask fuel cxn obj w).1 = Return r
              ↔ ∃ w1, (_init_attr bitstring_map;;
                       _sample_independent_bit_vectors fuel cxn;;
                       _invert_mask_equation) w = (Return (), w1)
                      ∧ (_check_mask_correct w1).1 = Return true
                      ∧ r = mask (self w1) ∧ is_Some (mask (self w1)))
  | _ =>
      find_mask fuel cxn obj w
      = (Raise (ValueError
                  "Bitstring map needs to be a map from bitstring to bitstring"),
         w)
  end.
Proof.
  destruct obj as [bm| | |]; try reflexivity.
  rewrite run_find_mask.
  pose proof (npe_solve fuel cxn bm w) as Hsolve.
  destruct ((_init_attr bm;; _sample_independent_bit_vectors fuel cxn;;
             _invert_mask_equation) w) as [[[]|e|] w1] eqn:Hrun; simpl in Hsolve.
  - pose proof (npe_check_mask_correct w1) as Hcheck.
    pose proof (check_mask_correct_world w1) as Hw.
    destruct (_check_mask_correct w1) as [[[]|e|] w2] eqn:Hc;
      simpl in Hcheck, Hw; subst w2; simpl.
    + split.
      * split; [done|]. intros (w' & [= <-] & Hf). by rewrite Hc in Hf.
      * intros r. split.
        -- intros [= <-]. exists w1. split_and!; try done. by rewrite Hc.
           unfold _check_mask_correct in Hc. rewrite run_bind, run_attr in Hc.
           destruct (mask (self w1)); [eauto|done].
        -- intros (w' & [= <-] & _ & -> & _). done.
    + split.
      * split; [|done]. intros _. exists w1. by rewrite Hc.
      * intros r. split; [done|].
        intros (w' & [= <-] & Ht & _). by rewrite Hc in Ht.
    + split.
      * split; [intros [= ->]; done|].
        intros (w' & [= <-] & Hf). by rewrite Hc in Hf.
      * intros r. split; [done|].
        intros (w' & [= <-] & Ht & _). by rewrite Hc in Ht.
    + split.
      * split; [done|]. intros (w' & [= <-] & Hf). by rewrite Hc in Hf.
      * intros r. split; [done|].
        intros (w' & [= <-] & Ht & _). by rewrite Hc in Ht.
  - simpl. split.
    + split; [intros [= ->]; done|]. by intros (w' & [=] & _).
    + intros r. split; [done|]. by intros (w' & [=] & _).
  - simpl. split.
    + split; [done|]. by intros (w' & [=] & _).
    + intros r. split; [done|]. by intros (w' & [=] & _).
Qed.

(** C10.  Conflict resolution.  Let the basis satisfy the invariant and the
    sample be a bit vector of length [n].  Whenever the sample's leading-one
    index [msb_z] is already taken by [conflict_z], the list comprehension
    yields the elementwise XOR [not_z], and if [not_z] is not all zero its
    leading-one index is strictly greater than [msb_z].  The call then
    returns having removed and overwritten nothing: the old basis is included
    in the new one, whose cardinality is at most one larger. *)
Theorem add_conflict_resolution (n : nat) (z : list Z) (w : world) :
  basis_inv n (basis_of w) → bitvec n z →
  (∀ msb_z conflict_z,
     utils.most_significant_bit z = Some msb_z →
     basis_of w !! msb_z = Some conflict_z →
     ∃ not_z,
       mapM (xor_at conflict_z z) (seq 0 (length z)) w = (Return not_z, w)
       ∧ (all_eq 0 not_z = false →
          ∃ msb_not_z, utils.most_significant_bit not_z = Some msb_not_z
                       ∧ (msb_z < msb_not_z)%nat))
  ∧ ∃ d', _add_to_dict_of_indep_bit_vectors z w = (Return PyNone, with_dict d' w)
          ∧ basis_of w ⊆ d'
          ∧ (size d' ≤ S (size (basis_of w)))%nat.
Proof.
  intros Hinv Hz. split.
  - intros k c Hk Hc. destruct (Hinv k c Hc) as [Hcv Hkc].
    exists (zip_with Z.lxor c z). split.
    + apply mapM_xor_at. destruct Hcv, Hz. lia.
    + intros Hnz. pose proof (zip_lxor_bitvec n c z Hcv Hz) as [_ Hbits].
      destruct (utils.most_significant_bit (zip_with Z.lxor c z)) as [k2|] eqn:Hk2.
      * exists k2. split; [done|]. by apply (conflict_msb_gt n c z k k2).
      * apply msb_None_all_zero in Hk2; [congruence|done].
  - destruct (add_step n z w Hinv Hz) as (d' & Hrun & _ & Hgrow).
    exists d'. split; [done|]. apply grown_subseteq in Hgrow as [Hsub Hsz].
    split; [done|]. destruct Hsz as [->|Hsz]; lia.
Qed.

Lemma add_conflict_resolution_witness :
  (∀ msb_z conflict_z,
     utils.most_significant_bit [1; 0; 1] = Some msb_z →
     basis_of (st_110 (basis_110 false true) 1) !! msb_z = Some conflict_z →
     ∃ not_z,
       mapM (xor_at conflict_z [1; 0; 1]) (seq 0 (length [1; 0; 1]))
         (st_110 (basis_110 false true) 1)
       = (Return not_z, st_110 (basis_110 false true) 1)
       ∧ (all_eq 0 not_z = false →
          ∃ msb_not_z, utils.most_significant_bit not_z = Some msb_not_z
                       ∧ (msb_z < msb_not_z)%nat))
  ∧ ∃ d', _add_to_dict_of_indep_bit_vectors [1; 0; 1]
            (st_110 (basis_110 false true) 1)
          = (Return PyNone, with_dict d' (st_110 (basis_110 false true) 1))
          ∧ basis_of (st_110 (basis_110 false true) 1) ⊆ d'
          ∧ (size d' ≤ S (size (basis_of (st_110 (basis_110 false true) 1))))%nat.
Proof.
  apply (add_conflict_resolution 3 [1; 0; 1] (st_110 (basis_110 false true) 1)).
  - apply basis_inv_110.
  - split; [reflexivity|]. repeat constructor; (by left) || (by right).
Defined.

(** * Further properties of the code *)

(** ** One call of the accumulator, case by case *)

Lemma degenerate_false_msb z :
  Forall bit z → degenerate z = false →
  ∃ k, utils.most_significant_bit z = Some k.
Proof.
  intros Hz Hdeg. apply orb_false_iff in Hdeg as [Hnz _].
  destruct (utils.most_significant_bit z) as [k|] eqn:Hk; [eauto|].
  apply msb_None_all_zero in Hk; [congruence|done].
Qed.

(** The sample's leading-one index is free: the sample is stored there. *)
Lemma add_run_fresh z w k :
  degenerate z = false → utils.most_significant_bit z = Some k →
  basis_of w !! k = None →
  _add_to_dict_of_indep_bit_vectors z w
  = (Return PyNone, with_dict (<[k := z]> (basis_of w)) w).
Proof.
  intros Hdeg Hk Hfree. unfold _add_to_dict_of_indep_bit_vectors.
  unfold degenerate in Hdeg. rewrite Hdeg, Hk.
  rewrite run_bind, run_or_raise_Some, run_bind, run_attr, Hfree.
  by rewrite run_bind, run_assign_dict, run_ret.
Qed.

(** The sample's leading-one index is taken by [c]. *)
Lemma add_run_conflict z w k c :
  degenerate z = false → utils.most_significant_bit z = Some k →
  basis_of w !! k = Some c → length c = length z →
  _add_to_dict_of_indep_bit_vectors z w
  = if all_eq 0 (zip_with Z.lxor c z) then (Return PyNone, w)
    else match utils.most_significant_bit (zip_with Z.lxor c z) with
         | None => (Raise IndexError, w)
         | Some k2 =>
             match basis_of w !! k2 with
             | None =>
                 (Return PyNone,
                  with_dict (<[k2 := zip_with Z.lxor c z]> (basis_of w)) w)
             | Some _ => (Return PyNone, w)
             end
         end.
Proof.
  intros Hdeg Hk Hc Hlen. unfold _add_to_dict_of_indep_bit_vectors.
  unfold degenerate in Hdeg. rewrite Hdeg, Hk.
  rewrite run_bind, run_or_raise_Some, run_bind, run_attr, Hc.
  rewrite run_bind, mapM_xor_at by done.
  destruct (all_eq 0 (zip_with Z.lxor c z)); [done|].
  rewrite run_bind.
  destruct (utils.most_significant_bit (zip_with Z.lxor c z)) as [k2|]; [|done].
  rewrite run_or_raise_Some, run_bind, run_attr.
  destruct (basis_of w !! k2); [done|].
  by rewrite run_bind, run_assign_dict, run_ret.
Qed.

Lemma zip_lxor_self z : all_eq 0 (zip_with Z.lxor z z) = true.
Proof.
  induction z as [|b z IH]; simpl; [done|].
  by rewrite Z.lxor_nilpotent, IH.
Qed.

(** The vector that a call stores, if it stores one: the sample itself or
    its XOR with the vector in conflict. *)
Lemma add_step_stored n z w :
  basis_inv n (basis_of w) → bitvec n z →
  ∃ d', _add_to_dict_of_indep_bit_vectors z w = (Return PyNone, with_dict d' w)
        ∧ (d' = basis_of w
           ∨ ∃ k v, basis_of w !! k = None ∧ d' = <[k:=v]> (basis_of w)
                    ∧ (v = z ∨ ∃ k0 c, basis_of w !! k0 = Some c
                                       ∧ v = zip_with Z.lxor c z)).
Proof.
  intros Hinv Hz.
  destruct (degenerate z) eqn:Hdeg.
  { exists (basis_of w). split; [|by left].
    unfold _add_to_dict_of_indep_bit_vectors. unfold degenerate in Hdeg.
    by rewrite Hdeg, with_dict_same. }
  destruct (degenerate_false_msb z (proj2 Hz) Hdeg) as [k Hk].
  destruct (basis_of w !! k) as [c|] eqn:Hc.
  - destruct (Hinv k c Hc) as [Hcv _].
    rewrite (add_run_conflict z w k c) by (done || (destruct Hcv, Hz; lia)).
    assert (∃ d', (Return PyNone, w) = (Return PyNone, with_dict d' w)
        ∧ (d' = basis_of w
           ∨ ∃ k v, basis_of w !! k = None ∧ d' = <[k:=v]> (basis_of w)
                    ∧ (v = z ∨ ∃ k0 c, basis_of w !! k0 = Some c
                                       ∧ v = zip_with Z.lxor c z))) as Hsame.
    { exists (basis_of w). rewrite with_dict_same. auto. }
    destruct (all_eq 0 (zip_with Z.lxor c z)) eqn:Hnz; [exact Hsame|].
    pose proof (zip_lxor_bitvec n c z Hcv Hz) as [_ Hbits].
    destruct (utils.most_significant_bit (zip_with Z.lxor c z))
      as [k2|] eqn:Hk2.
    + destruct (basis_of w !! k2) eqn:Hk2free; [exact Hsame|].
      eexists. split; [done|]. right. eexists _, _. split_and!; eauto.
    + apply msb_None_all_zero in Hk2; [congruence|done].
  - rewrite (add_run_fresh z w k) by done.
    eexists. split; [done|]. right. eexists _, _. split_and!; eauto.
Qed.

(** X1.  Feeding the same sample twice: under the basis invariant, the
    second call of [_add_to_dict_of_indep_bit_vectors] on a bit vector
    changes nothing. *)
Theorem add_idempotent (n : nat) (z : list Z) (w : world) :
  basis_inv n (basis_of w) → bitvec n z →
  ∃ w1, _add_to_dict_of_indep_bit_vectors z w = (Return PyNone, w1)
        ∧ _add_to_dict_of_indep_bit_vectors z w1 = (Return PyNone, w1).
Proof.
  intros Hinv Hz.
  destruct (degenerate z) eqn:Hdeg.
  { exists w. unfold _add_to_dict_of_indep_bit_vectors.
    unfold degenerate in Hdeg. by rewrite Hdeg. }
  destruct (degenerate_false_msb z (proj2 Hz) Hdeg) as [k Hk].
  destruct (basis_of w !! k) as [c|] eqn:Hc.
  - destruct (Hinv k c Hc) as [Hcv _].
    assert (length c = length z) as Hlen by (destruct Hcv, Hz; lia).
    pose proof (add_run_conflict z w k c Hdeg Hk Hc Hlen) as Hrun.
    destruct (all_eq 0 (zip_with Z.lxor c z)) eqn:Hnz; [by exists w|].
    pose proof (zip_lxor_bitvec n c z Hcv Hz) as [_ Hbits].
    destruct (utils.most_significant_bit (zip_with Z.lxor c z))
      as [k2|] eqn:Hk2;
      [|apply msb_None_all_zero in Hk2; [congruence|done]].
    destruct (basis_of w !! k2) eqn:Hk2free; [by exists w|].
    eexists. split; [exact Hrun|].
    rewrite (add_run_conflict z _ k c Hdeg Hk); [| |done].
    + rewrite Hnz, Hk2, basis_of_with_dict, lookup_insert_eq. done.
    + rewrite basis_of_with_dict, lookup_insert_ne; [done|congruence].
  - eexists. split; [by apply add_run_fresh|].
    rewrite (add_run_conflict z _ k z Hdeg Hk); [| |done].
    + by rewrite zip_lxor_self.
    + by rewrite basis_of_with_dict, lookup_insert_eq.
Qed.

Lemma add_idempotent_witness :
  ∃ w1, _add_to_dict_of_indep_bit_vectors [1; 0; 1]
          (st_110 (basis_110 false true) 1) = (Return PyNone, w1)
        ∧ _add_to_dict_of_indep_bit_vectors [1; 0; 1] w1 = (Return PyNone, w1).
Proof.
  apply (add_idempotent 3 [1; 0; 1] (st_110 (basis_110 false true) 1)).
  - apply basis_inv_110.
  - split; [reflexivity|]. repeat constructor; (by left) || (by right).
Defined.

(** ** Orthogonality to the hidden mask *)

Lemma lxor_shuffle a b c d :
  Z.lxor (Z.lxor a b) (Z.lxor c d) = Z.lxor (Z.lxor a c) (Z.lxor b d).
Proof.
  rewrite !Z.lxor_assoc. f_equal.
  rewrite <-!Z.lxor_assoc. f_equal. apply Z.lxor_comm.
Qed.

Lemma land_lxor_bits a b c :
  bit a → bit b → bit c →
  Z.land (Z.lxor a b) c = Z.lxor (Z.land a c) (Z.land b c).
Proof. by intros [->| ->] [->| ->] [->| ->]. Qed.

(** The dot product is additive in its first argument. *)
Lemma dot_zip_lxor c z s :
  Forall bit c → Forall bit z → Forall bit s → length c = length z →
  utils.dot (zip_with Z.lxor c z) s
  = Z.lxor (utils.dot c s) (utils.dot z s).
Proof.
  intros Hc. revert z s. induction Hc as [|a c Ha Hc IH]; intros z s Hz Hs Hlen.
  - destruct z; [done|done].
  - destruct Hz as [|b z Hb Hz]; [done|]. simpl in Hlen.
    destruct Hs as [|t s Ht Hs]; [done|]. simpl.
    rewrite IH by (done || lia).
    rewrite land_lxor_bits by done. apply lxor_shuffle.
Qed.

Lemma add_step_orth n s z w :
  basis_inv n (basis_of w) → bitvec n z → Forall bit s →
  orthogonal_basis s (basis_of w) → utils.dot z s = 0 →
  ∃ d', _add_to_dict_of_indep_bit_vectors z w = (Return PyNone, with_dict d' w)
        ∧ basis_inv n d' ∧ orthogonal_basis s d'
        ∧ (d' = basis_of w
           ∨ ∃ k v, basis_of w !! k = None ∧ d' = <[k:=v]> (basis_of w)).
Proof.
  intros Hinv Hz Hs Horth Hzs.
  destruct (add_step n z w Hinv Hz) as (d' & Hrun & Hinv' & Hgrow).
  destruct (add_step_stored n z w Hinv Hz) as (d'' & Hrun' & Hstored).
  rewrite Hrun in Hrun'. injection Hrun' as Hd.
  assert (d'' = d') as -> by (by destruct w as [[] ?]; simplify_eq/=).
  exists d'. split_and!; [done|done| |done].
  destruct Hstored as [->|(k & v & Hfree & -> & Hv)]; [done|].
  intros k' v'. rewrite lookup_insert. case_decide; [|apply Horth].
  intros [= <-]. destruct Hv as [->|(k0 & c & Hc & ->)]; [done|].
  destruct (Hinv k0 c Hc) as [[Hlc Hbc] _].
  rewrite dot_zip_lxor by (done || apply Hz || (destruct Hz; lia)).
  by rewrite (Horth k0 c Hc), Hzs.
Qed.

(** X2.  The accumulator keeps the basis inside the orthogonal complement
    of any bit vector [s]: if every stored vector and the sample are
    orthogonal to [s] over GF(2), so is every vector stored after the call.
    This is why the XOR of a conflict may be stored in place of the sample. *)
Theorem add_preserves_orthogonality (n : nat) (s z : list Z) (w : world) :
  basis_inv n (basis_of w) → bitvec n z → Forall bit s →
  orthogonal_basis s (basis_of w) → utils.dot z s = 0 →
  ∃ d', _add_to_dict_of_indep_bit_vectors z w = (Return PyNone, with_dict d' w)
        ∧ basis_inv n d' ∧ orthogonal_basis s d'.
Proof.
  intros Hinv Hz Hs Horth Hzs.
  destruct (add_step_orth n s z w Hinv Hz Hs Horth Hzs)
    as (d' & Hrun & Hinv' & Horth' & _).
  eauto.
Qed.

Lemma add_preserves_orthogonality_witness :
  ∃ d', _add_to_dict_of_indep_bit_vectors [0; 0; 1]
          (st_110 (basis_110 false true) 1)
        = (Return PyNone, with_dict d' (st_110 (basis_110 false true) 1))
        ∧ basis_inv 3 d' ∧ orthogonal_basis [1; 1; 0] d'.
Proof.
  apply (add_preserves_orthogonality 3 [1; 1; 0] [0; 0; 1]
           (st_110 (basis_110 false true) 1)).
  - apply basis_inv_110.
  - split; [reflexivity|]. repeat constructor; (by left) || (by right).
  - repeat constructor; (by left) || (by right).
  - intros k v Hkv. destruct (basis_inv_110 false true k v Hkv) as [_ Hm].
    unfold basis_110 in Hkv. simpl in Hkv.
    rewrite lookup_insert in Hkv. case_decide; [|by rewrite lookup_empty in Hkv].
    by injection Hkv as <-.
  - reflexivity.
Defined.

(** ** The sampling loop *)

Lemma dot_nil_r z : utils.dot z [] = 0.
Proof. by destruct z. Qed.

Lemma orthogonal_basis_nil d : orthogonal_basis [] d.
Proof. intros k v _. apply dot_nil_r. Qed.

(** Fed bit vectors of length [n] orthogonal to [s], from a basis of at most
    [n - 1] vectors satisfying the invariant, the loop never raises; when it
    returns, the basis has exactly [n - 1] vectors. *)
Lemma sample_run n s cxn :
  Forall bit s → (∀ i, bitvec n (cxn i) ∧ utils.dot (cxn i) s = 0) →
  ∀ fuel w,
    n_qubits (self w) = n → basis_inv n (basis_of w) →
    orthogonal_basis s (basis_of w) →
    Z.of_nat (size (basis_of w)) ≤ Z.of_nat n - 1 →
    (∃ w', _sample_independent_bit_vectors fuel cxn w = (OutOfFuel, w'))
    ∨ ∃ d' c',
        _sample_independent_bit_vectors fuel cxn w
        = (Return (), mkWorld (set_dict d' (self w)) c')
        ∧ basis_inv n d' ∧ orthogonal_basis s d'
        ∧ Z.of_nat (size d') = Z.of_nat n - 1
        ∧ basis_of w ⊆ d'
        ∧ (cxn_calls w ≤ c' ≤ cxn_calls w + fuel)%nat.
Proof.
  intros Hs Hcxn fuel. induction fuel as [|fuel IH]; intros w Hn Hinv Horth Hsz.
  - cbn [_sample_independent_bit_vectors].
    rewrite run_bind, run_attr, run_bind, run_attr.
    destruct (decide _) as [Hlt|Hge]; [left; by eexists|].
    right. exists (basis_of w), (cxn_calls w).
    fold (with_dict (basis_of w) w). rewrite with_dict_same.
    split_and!; try done; lia.
  - destruct (decide (Z.of_nat (size (basis_of w))
                      < Z.of_nat (n_qubits (self w)) - 1)) as [Hlt|Hge].
    + set (w1 := mkWorld (self w) (S (cxn_calls w))).
      destruct (Hcxn (cxn_calls w)) as [Hz Hzs].
      destruct (add_step_orth n s (cxn (cxn_calls w)) w1 Hinv Hz Hs Horth Hzs)
        as (d1 & Hrun & Hinv1 & Horth1 & Hgrow).
      assert (_sample_independent_bit_vectors (S fuel) cxn w
              = _sample_independent_bit_vectors fuel cxn (with_dict d1 w1))
        as Hstep.
      { cbn [_sample_independent_bit_vectors].
        rewrite run_bind, run_attr, run_bind, run_attr.
        rewrite decide_True by exact Hlt.
        rewrite run_bind. unfold run_and_measure at 1. cbv beta iota.
        fold w1. by rewrite run_bind, Hrun. }
      rewrite Hstep.
      apply grown_subseteq in Hgrow as [Hsub Hsize].
      destruct (IH (with_dict d1 w1)) as [[w' Hout]|(d' & c' & Hret & Hpost)].
      * done.
      * done.
      * done.
      * rewrite basis_of_with_dict. rewrite Hn in Hlt.
        change (basis_of w1) with (basis_of w) in Hsize.
        destruct Hsize as [->|Hsize]; lia.
      * left. eauto.
      * right. exists d', c'. split; [exact Hret|].
        destruct Hpost as (? & ? & ? & Hsub' & Hc).
        split_and!; try done.
        -- etrans; [exact Hsub|exact Hsub'].
        -- simpl in Hc. lia.
        -- simpl in Hc. lia.
    + right. exists (basis_of w), (cxn_calls w).
      fold (with_dict (basis_of w) w). rewrite with_dict_same.
      split_and!; try done; try lia.
      cbn [_sample_independent_bit_vectors].
      rewrite run_bind, run_attr, run_bind, run_attr.
      by rewrite decide_False by exact Hge.
Qed.

(** X3.  The sampling loop establishes the precondition of the completer.
    Started with [n_qubits = n] on a basis of at most [n - 1] vectors that
    satisfies the invariant, and fed bit vectors of length [n], the loop
    never raises; when it returns, the basis holds exactly [n - 1] vectors,
    still satisfies the invariant and contains the old one, nothing but the
    basis has changed in the object, and at most as many calls were made on
    the connection as iterations were allowed. *)
Theorem sampling_postcondition (n : nat) (cxn : nat → list Z) (fuel : nat)
    (w : world) :
  n_qubits (self w) = n → basis_inv n (basis_of w) →
  Z.of_nat (size (basis_of w)) ≤ Z.of_nat n - 1 →
  (∀ i, bitvec n (cxn i)) →
  match _sample_independent_bit_vectors fuel cxn w with
  | (Return _, w') =>
      Z.of_nat (size (basis_of w')) = Z.of_nat n - 1
      ∧ basis_inv n (basis_of w')
      ∧ basis_of w ⊆ basis_of w'
      ∧ self w' = set_dict (basis_of w') (self w)
      ∧ (cxn_calls w ≤ cxn_calls w' ≤ cxn_calls w + fuel)%nat
  | (Raise _, _) => False
  | (OutOfFuel, _) => True
  end.
Proof.
  intros Hn Hinv Hsz Hcxn.
  destruct (sample_run n [] cxn) with (fuel := fuel) (w := w)
    as [[w' ->]|(d' & c' & -> & Hinv' & _ & Hsz' & Hsub & Hc)]; try done.
  - intros i. split; [apply Hcxn|apply dot_nil_r].
  - apply orthogonal_basis_nil.
Qed.

Lemma sampling_postcondition_witness :
  match _sample_independent_bit_vectors 2 cxn_001_110 (st_110 ∅ 0) with
  | (Return _, w') =>
      Z.of_nat (size (basis_of w')) = Z.of_nat 3 - 1
      ∧ basis_inv 3 (basis_of w')
      ∧ basis_of (st_110 ∅ 0) ⊆ basis_of w'
      ∧ self w' = set_dict (basis_of w') (self (st_110 ∅ 0))
      ∧ (cxn_calls (st_110 ∅ 0) ≤ cxn_calls w' ≤ cxn_calls (st_110 ∅ 0) + 2)%nat
  | (Raise _, _) => False
  | (OutOfFuel, _) => True
  end.
Proof.
  apply (sampling_postcondition 3 cxn_001_110 2 (st_110 ∅ 0)).
  - reflexivity.
  - apply basis_inv_empty.
  - vm_compute. discriminate.
  - intros i. unfold cxn_001_110. destruct (decide (i = 0%nat));
      (split; [reflexivity|]); repeat constructor; (by left) || (by right).
Defined.

(** ** The solved mask *)

Lemma dot_replicate_0_l n m : utils.dot (replicate n 0) m = 0.
Proof.
  revert m. induction n as [|n IH]; intros [|b m]; simpl; try done.
  by rewrite IH.
Qed.


(** The dot product with a unit vector reads one entry. *)
Lemma dot_unit_vector n i m b :
  length m = n → Forall bit m → m !! i = Some b →
  utils.dot (unit_vector n i) m = b.
Proof.
  intros Hlen Hm. revert n i Hlen. induction Hm as [|b0 m Hb0 Hm IH];
    intros n i Hlen Hi; [done|].
  destruct n as [|n]; [done|]. simpl in Hlen. unfold unit_vector.
  destruct i as [|i]; simpl in *.
  - injection Hi as ->. rewrite dot_replicate_0_l, Z.lxor_0_r.
    by apply land_1_bit.
  - fold (unit_vector n i). rewrite (IH n i) by (done || lia). done.
Qed.

(** A solution of rows [i], [i+1], ... is what back substitution finds. *)
Lemma back_substitute_from_unique n W : ∀ s i x,
  length W = length x → (i + length W = n)%nat → Forall bit x →
  (∀ j row, W !! j = Some row →
     bitvec n row ∧ utils.most_significant_bit row = Some (i + j)%nat) →
  (∀ j row, W !! j = Some row → s !! j = Some (utils.dot (drop i row) x)) →
  x = utils.back_substitute_from i W s.
Proof.
  induction W as [|row0 W IH]; intros s i x Hlen Hn Hx Hrows Hsol.
  - by destruct x.
  - destruct x as [|x0 x]; [done|]. apply Forall_cons in Hx as [Hx0 Hx].
    simpl in Hlen, Hn.
    destruct (Hrows 0%nat row0 eq_refl) as [[Hl0 Hb0] Hm0].
    rewrite Nat.add_0_r in Hm0.
    pose proof (Hsol 0%nat row0 eq_refl) as Hs0.
    destruct s as [|t s]; [done|]. injection Hs0 as Hs0.
    rewrite (drop_S row0 1 i) in Hs0 by (by apply msb_lookup).
    cbn [utils.dot] in Hs0. rewrite land_1_bit in Hs0 by done.
    assert (x = utils.back_substitute_from (S i) W s) as Hx'.
    { apply IH; [lia|lia|done| |].
      - intros j row Hj. destruct (Hrows (S j) row Hj) as [Hb Hm].
        split; [done|]. rewrite Hm. f_equal. lia.
      - intros j row Hj. destruct (Hrows (S j) row Hj) as [[Hl Hb] Hm].
        pose proof (Hsol (S j) row Hj) as Hsj.
        change ((t :: s) !! S j) with (s !! j) in Hsj. rewrite Hsj. f_equal.
        rewrite (drop_S row 0 i)
          by (apply (msb_before row (i + S j)); [done|done|lia]).
        cbn [utils.dot]. by rewrite Z.land_0_l, Z.lxor_0_l. }
    cbn [utils.back_substitute_from]. rewrite <-Hx'. f_equal.
    rewrite Hs0, Z.lxor_assoc, Z.lxor_nilpotent, Z.lxor_0_r. done.
Qed.

Lemma binary_back_substitute_unique n W s x :
  length W = n → bitvec n x →
  (∀ j row, W !! j = Some row →
     bitvec n row ∧ utils.most_significant_bit row = Some j) →
  mat_vec W x = s → x = utils.binary_back_substitute W s.
Proof.
  intros HW [Hlx Hx] Hrows Heq. unfold utils.binary_back_substitute.
  apply (back_substitute_from_unique n); [lia|lia|done|done|].
  intros j row Hj. rewrite drop_0, <-Heq. unfold mat_vec.
  by rewrite list_lookup_fmap, Hj.
Qed.

(** What [_invert_mask_equation] stores on a basis of [n - 1] vectors
    satisfying the invariant: a bit vector with a 1 at the missing index and
    orthogonal to every vector of the basis. *)
Lemma invert_orthogonal n w :
  n_qubits (self w) = n → basis_inv n (basis_of w) →
  Z.of_nat (size (basis_of w)) = Z.of_nat n - 1 →
  ∃ m_prov m,
    missing n (basis_of w) = [m_prov]
    ∧ _invert_mask_equation w
      = (Return (),
         mkWorld (set_mask (Some m)
                    (set_dict (<[m_prov := unit_vector n m_prov]> (basis_of w))
                       (self w)))
           (cxn_calls w))
    ∧ bitvec n m
    ∧ m = utils.binary_back_substitute
            (sorted_rows (<[m_prov := unit_vector n m_prov]> (basis_of w)))
            (unit_vector n m_prov)
    ∧ m !! m_prov = Some 1
    ∧ orthogonal_basis m (basis_of w).
Proof.
  intros Hn Hinv Hsz.
  destruct (complete_basis n w Hn Hinv Hsz)
    as (m_prov & Hmiss & Hlt & Hfree & Hrun & Hinv' & Hdom).
  set (d' := <[m_prov:=unit_vector n m_prov]> (basis_of w)) in *.
  destruct (binary_back_substitute_correct n (sorted_rows d')
              (unit_vector n m_prov)) as [Hbv Heq].
  { by apply sorted_rows_length. }
  { apply unit_vector_bitvec. }
  { intros j row. rewrite (sorted_rows_lookup n) by done. apply Hinv'. }
  set (m := utils.binary_back_substitute (sorted_rows d') (unit_vector n m_prov))
    in *.
  assert (∀ k v, d' !! k = Some v →
            unit_vector n m_prov !! k = Some (utils.dot v m)) as Hrow.
  { intros k v Hkv. rewrite <-Heq. unfold mat_vec.
    by rewrite list_lookup_fmap, (sorted_rows_lookup n), Hkv. }
  exists m_prov, m. split_and!; try done.
  - unfold _invert_mask_equation.
    rewrite run_bind, Hrun, run_bind, run_attr, run_bind, run_attr.
    cbn [self with_dict n_qubits set_dict basis_of_with_dict]. rewrite Hn.
    reflexivity.
  - destruct (lookup_lt_is_Some_2 m m_prov) as [b Hb];
      [destruct Hbv; lia|].
    specialize (Hrow m_prov (unit_vector n m_prov)).
    unfold d' in Hrow. rewrite lookup_insert_eq in Hrow.
    specialize (Hrow eq_refl).
    rewrite (dot_unit_vector n m_prov m b) in Hrow
      by (done || apply Hbv).
    unfold unit_vector in Hrow at 1.
    rewrite list_lookup_insert_eq in Hrow by (by rewrite length_replicate).
    congruence.
  - intros k v Hkv.
    assert (k ≠ m_prov) as Hne by congruence.
    specialize (Hrow k v). unfold d' in Hrow.
    rewrite lookup_insert_ne in Hrow by done. specialize (Hrow Hkv).
    unfold unit_vector in Hrow. rewrite list_lookup_insert_ne in Hrow by done.
    rewrite lookup_replicate_2 in Hrow
      by (apply (basis_inv_key_lt n (basis_of w)); [done|by eexists]).
    congruence.
Qed.

(** X4.  On a basis of [n - 1] vectors satisfying the invariant,
    [_invert_mask_equation] stores a mask that is a bit vector of length
    [n], has a 1 at the index that was missing (so it is never the zero
    vector) and is orthogonal over GF(2) to every vector that was collected;
    nothing else changes but the basis, which gains the unit vector.  (The
    mask is computed by [utils.binary_back_substitute] as modelled from the
    spec.) *)
Theorem invert_mask_orthogonal (n : nat) (w : world) :
  n_qubits (self w) = n → basis_inv n (basis_of w) →
  Z.of_nat (size (basis_of w)) = Z.of_nat n - 1 →
  ∃ m_prov m,
    _invert_mask_equation w
    = (Return (),
       mkWorld (set_mask (Some m)
                  (set_dict (<[m_prov := unit_vector n m_prov]> (basis_of w))
                     (self w)))
         (cxn_calls w))
    ∧ basis_of w !! m_prov = None
    ∧ bitvec n m
    ∧ m !! m_prov = Some 1
    ∧ (∀ k v, basis_of w !! k = Some v → utils.dot v m = 0).
Proof.
  intros Hn Hinv Hsz.
  destruct (invert_orthogonal n w Hn Hinv Hsz)
    as (m_prov & m & Hmiss & Hrun & Hbv & _ & H1 & Horth).
  exists m_prov, m. split_and!; try done.
  assert (m_prov ∈ missing n (basis_of w)) as Hin by (rewrite Hmiss; left).
  by apply elem_of_missing in Hin as [_ ?].
Qed.

Lemma invert_mask_orthogonal_witness :
  ∃ m_prov m,
    _invert_mask_equation (st_110 (basis_110 true true) 2)
    = (Return (),
       mkWorld (set_mask (Some m)
                  (set_dict (<[m_prov := unit_vector 3 m_prov]>
                               (basis_of (st_110 (basis_110 true true) 2)))
                     (self (st_110 (basis_110 true true) 2))))
         (cxn_calls (st_110 (basis_110 true true) 2)))
    ∧ basis_of (st_110 (basis_110 true true) 2) !! m_prov = None
    ∧ bitvec 3 m
    ∧ m !! m_prov = Some 1
    ∧ (∀ k v, basis_of (st_110 (basis_110 true true) 2) !! k = Some v →
         utils.dot v m = 0).
Proof.
  apply (invert_mask_orthogonal 3 (st_110 (basis_110 true true) 2)).
  - reflexivity.
  - apply basis_inv_110.
  - reflexivity.
Defined.



(** ** Initialisation *)

Lemma pure_ret {A} (a : A) : pure_comp (mret a).
Proof. by exists (Return a). Qed.

Lemma pure_or_raise {A} e (o : option A) : pure_comp (or_raise e o).
Proof. destruct o; by eexists. Qed.

Lemma pure_raise {A} e : pure_comp (raise (A:=A) e).
Proof. by eexists. Qed.

Lemma pure_bind {A B} (m : M A) (f : A → M B) :
  pure_comp m → (∀ a, pure_comp (f a)) → pure_comp (m ≫= f).
Proof.
  intros [r Hr] Hf. destruct r as [a|e|].
  - destruct (Hf a) as [r' Hr']. exists r'. intros w.
    by rewrite run_bind, Hr, Hr'.
  - exists (Raise e). intros w. by rewrite run_bind, Hr.
  - exists OutOfFuel. intros w. by rewrite run_bind, Hr.
Qed.

Lemma pure_mapM {A B} (f : A → M B) l :
  (∀ a, pure_comp (f a)) → pure_comp (mapM f l).
Proof.
  intros Hf. induction l as [|a l IH]; simpl; [apply pure_ret|].
  apply pure_bind; [apply Hf|]. intros b.
  apply pure_bind; [apply IH|]. intros bs. apply pure_ret.
Qed.

Lemma pure_oracle_entry pad n kv : pure_comp (oracle_entry pad n kv).
Proof.
  unfold oracle_entry.
  repeat (apply pure_bind; [apply pure_or_raise|intros ?]).
  destruct (decide _); [apply pure_ret|apply pure_raise].
Qed.

Lemma pure_compute_unitary_oracle_matrix bm :
  pure_comp (_compute_unitary_oracle_matrix bm).
Proof.
  unfold _compute_unitary_oracle_matrix.
  apply pure_bind; [apply pure_or_raise|intros k0].
  apply pure_bind; [|intros ?; apply pure_ret].
  apply pure_mapM. intros b. apply pure_mapM. intros kv.
  apply pure_oracle_entry.
Qed.

(** [_init_attr], in one equation. *)
Lemma run_init_attr bm w :
  _init_attr bm w =
  match head bm.*1 with
  | None => (Raise IndexError, w)
  | Some k0 =>
      let n := String.length k0 in
      let w1 := mkWorld (mkSimon (unitary_function_mapping (self w)) n n
                           (seq 0 (n + n)) (take n (seq 0 (n + n)))
                           (drop n (seq 0 (n + n))) (simon_circuit (self w))
                           (basis_of w) (mask (self w)) bm (seq 0 (n + n)))
                  (cxn_calls w) in
      match (_compute_unitary_oracle_matrix bm w1).1 with
      | Return ufm =>
          (Return (),
           mkWorld (mkSimon ufm n n (seq 0 (n + n)) (take n (seq 0 (n + n)))
                      (drop n (seq 0 (n + n)))
                      ([DefGate "SIMON_ORACLE" ufm]
                       ++ (H <$> take n (seq 0 (n + n)))
                       ++ [Gate "SIMON_ORACLE" (reverse (seq 0 (n + n)))]
                       ++ (H <$> take n (seq 0 (n + n))))
                      ∅ None bm (seq 0 (n + n)))
             (cxn_calls w))
      | Raise e => (Raise e, w1)
      | OutOfFuel => (OutOfFuel, w1)
      end
  end.
Proof.
  unfold _init_attr. rewrite run_bind.
  destruct (head bm.*1) as [k0|]; [|done]. cbv zeta.
  rewrite run_or_raise_Some, run_bind. unfold assign at 1. cbv beta iota.
  destruct (pure_compute_unitary_oracle_matrix bm) as [r Hr].
  rewrite run_bind, Hr. simpl. by destruct r.
Qed.


(** ** The whole run *)



(** ** Bit strings *)

Lemma length_append_str (a b : string) :
  String.length (a +:+ b) = (String.length a + String.length b)%nat.
Proof. induction a as [|c a IH]; simpl; [done|]. by rewrite IH. Qed.

Lemma is_bits_append (a b : string) : is_bits a → is_bits b → is_bits (a +:+ b).
Proof. induction a as [|c a IH]; simpl; [done|]. intros [? ?] ?. auto. Qed.

Lemma bitstring_append n m a b :
  bitstring n a → bitstring m b → bitstring (n + m) (a +:+ b).
Proof.
  intros [<- Ha] [<- Hb]. split; [apply length_append_str|].
  by apply is_bits_append.
Qed.

Lemma zeros_str_bitstring n : bitstring n (zeros_str n).
Proof.
  induction n as [|n [IHl IHb]]; [done|]. split; simpl; [by rewrite IHl|auto].
Qed.

Lemma bin_pos_length p acc :
  String.length (bin_pos p acc) = (Pos.size_nat p + String.length acc)%nat.
Proof.
  revert acc. induction p as [p IH|p IH|]; intros acc; simpl; [| |done];
    rewrite IH; simpl; lia.
Qed.

Lemma bin_pos_bits p acc : is_bits acc → is_bits (bin_pos p acc).
Proof.
  revert acc. induction p as [p IH|p IH|]; intros acc Hacc; simpl;
    [apply IH|apply IH|]; simpl; auto.
Qed.

Lemma size_nat_bound p n : (Npos p < 2 ^ N.of_nat n)%N → (Pos.size_nat p ≤ n)%nat.
Proof.
  revert n. induction p as [p IH|p IH|]; intros n Hlt.
  - destruct n as [|n]; [simpl in Hlt; lia|].
    rewrite Nat2N.inj_succ, N.pow_succ_r' in Hlt.
    simpl. apply le_n_S, IH. lia.
  - destruct n as [|n]; [simpl in Hlt; lia|].
    rewrite Nat2N.inj_succ, N.pow_succ_r' in Hlt.
    simpl. apply le_n_S, IH. lia.
  - destruct n as [|n]; [simpl in Hlt; lia|]. simpl. lia.
Qed.

(** [np.binary_repr(b, n)] is a bit string of length [n] for [b < 2 ** n]. *)
Lemma binary_repr_bitstring b n :
  (1 ≤ n)%nat → (b < 2 ^ N.of_nat n)%N → bitstring n (binary_repr b n).
Proof.
  intros Hn Hb. unfold binary_repr.
  set (s := match b with N0 => "0"%string | Npos p => bin_pos p EmptyString end).
  assert (bitstring (String.length s) s ∧ (String.length s ≤ n)%nat) as [Hs Hl].
  { unfold s. destruct b as [|p].
    - split; [split; simpl; auto|simpl; lia].
    - split; [split; [done|by apply bin_pos_bits]|].
      rewrite bin_pos_length. simpl. apply size_nat_bound in Hb. lia. }
  replace n with ((n - String.length s) + String.length s)%nat at 1 by lia.
  apply bitstring_append; [apply zeros_str_bitstring|done].
Qed.

Lemma bitwise_xor_bitstring n a b :
  bitstring n a → bitstring n b →
  ∃ c, utils.bitwise_xor a b = Some c ∧ bitstring n c.
Proof.
  revert n b. induction a as [|ca a IH]; intros n b [Hla Ha] [Hlb Hb].
  - destruct b; [|simpl in *; congruence]. exists EmptyString. by subst.
  - destruct b as [|cb b]; [simpl in *; congruence|].
    simpl in Hla, Hlb, Ha, Hb. destruct Ha as [Hca Ha], Hb as [Hcb Hb].
    destruct n as [|n]; [done|].
    destruct (IH n b) as (c & Hc & Hlc & Hbc); [split; [lia|done]..|].
    cbn [utils.bitwise_xor]. unfold utils.xor_char.
    rewrite decide_True by done. rewrite decide_True by done. simpl.
    rewrite Hc. simpl. eexists. split; [done|].
    split; simpl; [by rewrite Hlc|]. split; [|done].
    destruct (decide (ca = cb)); auto.
Qed.

Lemma int2_go_bits s :
  is_bits s →
  ∃ v, (v < 2 ^ N.of_nat (String.length s))%N
       ∧ ∀ acc, int2_go acc s
                = Some (acc * 2 ^ N.of_nat (String.length s) + v)%N.
Proof.
  induction s as [|c s IH]; simpl.
  - intros _. exists 0%N. split; [done|]. intros acc. f_equal. lia.
  - intros [Hc Hs]. destruct (IH Hs) as (v & Hv & Hgo).
    rewrite Nat2N.inj_succ, N.pow_succ_r'.
    destruct Hc as [->| ->].
    + exists v. split; [lia|]. intros acc.
      rewrite decide_True by done. rewrite Hgo. f_equal. lia.
    + exists (2 ^ N.of_nat (String.length s) + v)%N. split; [lia|].
      intros acc. rewrite decide_False by done. rewrite decide_True by done.
      rewrite Hgo. f_equal. lia.
Qed.

(** [int(s, 2)] on a non-empty bit string of length [n] is below [2 ** n]. *)
Lemma int2_bitstring n s :
  (1 ≤ n)%nat → bitstring n s → ∃ i, int2 s = Some i ∧ (i < 2 ^ N.of_nat n)%N.
Proof.
  intros Hn [Hl Hs]. destruct (int2_go_bits s Hs) as (v & Hv & Hgo).
  exists v. rewrite Hl in Hv. split; [|done].
  unfold int2. destruct s; [simpl in Hl; lia|]. rewrite Hgo. f_equal.
Qed.

(** ** Initialisation on a well-formed table *)

Lemma mapM_pure_Forall2 {A B} (f : A → M B) (P : A → B → Prop) l :
  (∀ a, a ∈ l → ∃ b, P a b ∧ ∀ w, f a w = (Return b, w)) →
  ∃ bs, Forall2 P l bs ∧ ∀ w, mapM f l w = (Return bs, w).
Proof.
  induction l as [|a l IH]; intros Hf.
  - exists []. split; [constructor|done].
  - destruct (Hf a) as (b & Hb & Hrun); [left|].
    destruct IH as (bs & Hbs & Hruns); [intros a' Ha'; apply Hf; by right|].
    exists (b :: bs). split; [by constructor|]. intros w. simpl.
    by rewrite run_bind, Hrun, run_bind, Hruns.
Qed.

Lemma oracle_entry_ok n pad k v :
  (1 ≤ n)%nat → bitstring n pad → bitstring n k → bitstring n v →
  ∃ ij, (ij.1 < 2 ^ (2 * N.of_nat n) ∧ ij.2 < 2 ^ (2 * N.of_nat n))%N
        ∧ ∀ w, oracle_entry pad n (k, v) w = (Return ij, w).
Proof.
  intros Hn Hpad Hk Hv.
  destruct (bitwise_xor_bitstring n pad v Hpad Hv) as (x & Hx & Hxb).
  destruct (int2_bitstring (n + n) (pad +:+ k)) as (i & Hi & Hilt);
    [lia|by apply bitstring_append|].
  destruct (int2_bitstring (n + n) (x +:+ k)) as (j & Hj & Hjlt);
    [lia|by apply bitstring_append|].
  replace (N.of_nat (n + n)) with (2 * N.of_nat n)%N in Hilt, Hjlt by lia.
  exists (i, j). split; [done|]. intros w. unfold oracle_entry. simpl.
  rewrite run_bind, Hx, run_or_raise_Some, run_bind, Hi, run_or_raise_Some.
  rewrite run_bind, Hj, run_or_raise_Some.
  by rewrite decide_True.
Qed.

Lemma length_concat_same {A} (rows : list (list A)) m :
  Forall (λ row, length row = m) rows →
  length (concat rows) = (length rows * m)%nat.
Proof.
  induction 1 as [|row rows Hrow _ IH]; simpl; [done|].
  rewrite length_app, IH. lia.
Qed.

Lemma compute_unitary_oracle_matrix_ok n bm :
  (1 ≤ n)%nat → wf_table n bm →
  ∃ ufm, length ufm = (2 ^ n * length bm)%nat
         ∧ Forall (λ ij, ij.1 < 2 ^ (2 * N.of_nat n)
                         ∧ ij.2 < 2 ^ (2 * N.of_nat n))%N ufm
         ∧ ∀ w, _compute_unitary_oracle_matrix bm w = (Return ufm, w).
Proof.
  intros Hn [Hne Hwf].
  destruct bm as [|[k0 v0] bm']; [done|]. set (bm := (k0, v0) :: bm') in *.
  destruct (Hwf k0 v0) as [[Hk0 _] _]; [left|].
  destruct (mapM_pure_Forall2
              (λ b : nat,
                 mapM (oracle_entry (binary_repr (N.of_nat b) n) n) bm)
              (λ _ row, length row = length bm
                        ∧ Forall (λ ij, ij.1 < 2 ^ (2 * N.of_nat n)
                                        ∧ ij.2 < 2 ^ (2 * N.of_nat n))%N row)
              (seq 0 (2 ^ n))) as (rows & Hrows & Hrun).
  { intros b Hb. apply elem_of_seq in Hb.
    assert (bitstring n (binary_repr (N.of_nat b) n)) as Hpad.
    { apply binary_repr_bitstring; [done|].
      pose proof (Nat2N.inj_pow 2 n) as Hpow. simpl in Hpow. lia. }
    destruct (mapM_pure_Forall2
                (oracle_entry (binary_repr (N.of_nat b) n) n)
                (λ _ ij, ij.1 < 2 ^ (2 * N.of_nat n)
                         ∧ ij.2 < 2 ^ (2 * N.of_nat n))%N bm)
      as (row & Hrow & Hrunrow).
    { intros [k v] Hkv. destruct (Hwf k v Hkv) as [Hk Hv].
      by apply oracle_entry_ok. }
    exists row. split; [|done]. split.
    - symmetry. by eapply Forall2_length.
    - clear -Hrow. induction Hrow; constructor; auto. }
  exists (concat rows). split_and!.
  - rewrite (length_concat_same rows (length bm)).
    + apply Forall2_length in Hrows. rewrite length_seq in Hrows. lia.
    + clear -Hrows. induction Hrows as [|???? [? _]]; constructor; auto.
  - apply Forall_concat. clear -Hrows.
    induction Hrows as [|???? [_ ?]]; constructor; auto.
  - intros w. unfold _compute_unitary_oracle_matrix.
    rewrite run_bind. simpl. rewrite run_bind, Hk0, Hrun. done.
Qed.

Lemma init_attr_ok (n : nat) (bm : list (string * string)) (w : world) :
  (1 ≤ n)%nat → wf_table n bm →
  ∃ w1, _init_attr bm w = (Return (), w1)
        ∧ n_qubits (self w1) = n
        ∧ log_qubits (self w1) = seq 0 n
        ∧ ancillas (self w1) = seq n n
        ∧ basis_of w1 = ∅
        ∧ mask (self w1) = None
        ∧ bit_map (self w1) = bm
        ∧ length (unitary_function_mapping (self w1)) = (2 ^ n * length bm)%nat
        ∧ Forall (λ ij, ij.1 < 2 ^ (2 * N.of_nat n)
                        ∧ ij.2 < 2 ^ (2 * N.of_nat n))%N
            (unitary_function_mapping (self w1))
        ∧ cxn_calls w1 = cxn_calls w.
Proof.
  intros Hn Hwf.
  destruct (compute_unitary_oracle_matrix_ok n bm Hn Hwf)
    as (ufm & Hlen & Hbounds & Hrun).
  destruct Hwf as [Hne Hwf].
  destruct bm as [|[k0 v0] bm']; [done|].
  destruct (Hwf k0 v0) as [[Hk0 _] _]; [left|].
  rewrite run_init_attr. simpl. rewrite Hrun, Hk0. simpl.
  eexists. split; [reflexivity|]. simpl.
  split_and!; try done.
  - rewrite take_seq. f_equal. lia.
  - rewrite drop_seq. f_equal; lia.
Qed.




(** ** [find_mask] as a whole *)

Lemma check_true_iff w m :
  mask (self w) = Some m →
  (_check_mask_correct w).1 = Return true
  ↔ ∀ k, k ∈ (bit_map (self w)).*1 →
      same_value (bit_map (self w)) (join_str m) k.
Proof.
  intros Hm. rewrite (run_check_mask_correct w m Hm).
  rewrite <-(mapM_check_key_true _ _ _ w).
  destruct (mapM (M:=M) _ _ w) as [[bs|e|] w1]; simpl.
  - split.
    + intros [= Hall]. eauto.
    + intros (bs' & [= <-] & Hall). by rewrite Hall.
  - split; [done|]. by intros (? & ? & _).
  - split; [done|]. by intros (? & ? & _).
Qed.




(** X7.  Soundness of the recovery.  On a well-formed table of [n]-bit
    strings and a connection that answers bit vectors of length [n],
    whatever mask [find_mask] returns is a bit vector of length [n], is not
    the zero vector, and passes the comparison of the validator for every
    key of the table ([table[k] == table[k XOR mask]]).  (The mask is
    computed by [utils.binary_back_substitute] as modelled from the spec.) *)
Theorem find_mask_sound (n : nat) (cxn : nat → list Z)
    (bm : list (string * string)) (fuel : nat) (w : world)
    (r : option (list Z)) :
  (1 ≤ n)%nat → wf_table n bm → (∀ i, bitvec n (cxn i)) →
  (find_mask fuel cxn (PyDict bm) w).1 = Return r →
  ∃ m, r = Some m ∧ bitvec n m ∧ m ≠ replicate n 0
       ∧ ∀ k, k ∈ bm.*1 → same_value bm (join_str m) k.
Proof.
  intros Hn Hwf Hcxn.
  destruct (init_attr_ok n bm w Hn Hwf)
    as (w1 & Hinit & Hn1 & _ & _ & Hempty & _ & Hbm & _).
  rewrite run_find_mask, run_bind, Hinit, run_bind.
  destruct (sample_run n [] cxn) with (fuel := fuel) (w := w1)
    as [[w' ->]|(d' & c' & -> & Hinv' & _ & Hsz' & _ & _)]; try done.
  - intros i. split; [apply Hcxn|apply dot_nil_r].
  - rewrite Hempty. apply basis_inv_empty.
  - apply orthogonal_basis_nil.
  - rewrite Hempty, map_size_empty. lia.
  - destruct (invert_orthogonal n (mkWorld (set_dict d' (self w1)) c'))
      as (m_prov & m & _ & -> & Hbv & _ & Hone & _); try done.
    match goal with |- context [_check_mask_correct ?x] => set (w3 := x) end.
    pose proof (check_true_iff w3 m eq_refl) as Hiff.
    pose proof (check_mask_correct_world w3) as Hw.
    destruct (_check_mask_correct w3) as [[[]|e|] w4]; simpl in Hw, Hiff;
      subst w4; simpl; try done.
    intros [= <-]. exists m. split_and!; try done.
    + intros Hz. rewrite Hz, lookup_replicate in Hone. by destruct Hone.
    + replace bm with (bit_map (self w3)) by (by rewrite <-Hbm).
      by apply Hiff.
Qed.

Lemma find_mask_sound_witness :
  ∃ m, Some [1; 1; 0] = Some m ∧ bitvec 3 m ∧ m ≠ replicate 3 0
       ∧ ∀ k, k ∈ table_110.*1 → same_value table_110 (join_str m) k.
Proof.
  apply (find_mask_sound 3 cxn_001_110 table_110 2 world0 (Some [1; 1; 0])).
  - lia.
  - split; [discriminate|]. intros k v Hkv.
    repeat (apply elem_of_cons in Hkv as [[= -> ->]|Hkv];
            [split; (split; [reflexivity|simpl; tauto])|]).
    by apply not_elem_of_nil in Hkv.
  - intros i. unfold cxn_001_110. destruct (decide (i = 0%nat));
      (split; [reflexivity|]); repeat constructor; (by left) || (by right).
  - vm_compute. reflexivity.
Defined.

(** X8.  A [Simon] object can be reused: the outcome of [find_mask] and the
    number of calls it makes on the connection do not depend on what the
    attributes of the object held before the call. *)
Theorem find_mask_ignores_prior_state (fuel : nat) (cxn : nat → list Z)
    (obj : pyobj) (s s' : Simon) (c : nat) :
  (find_mask fuel cxn obj (mkWorld s c)).1
  = (find_mask fuel cxn obj (mkWorld s' c)).1
  ∧ cxn_calls (find_mask fuel cxn obj (mkWorld s c)).2
    = cxn_calls (find_mask fuel cxn obj (mkWorld s' c)).2.
Proof.
  destruct obj as [bm| | |]; try done.
  unfold find_mask. rewrite !run_bind, !run_init_attr.
  destruct (head bm.*1) as [k0|]; [|done]. cbv zeta.
  destruct (pure_compute_unitary_oracle_matrix bm) as [r Hr].
  rewrite !Hr. simpl. by destruct r.
Qed.

Lemma sample_skip fuel cxn w :
  ¬ Z.of_nat (size (basis_of w)) < Z.of_nat (n_qubits (self w)) - 1 →
  _sample_independent_bit_vectors fuel cxn w = (Return (), w).
Proof.
  intros Hge. destruct fuel; cbn [_sample_independent_bit_vectors];
    rewrite run_bind, run_attr, run_bind, run_attr;
    by rewrite decide_False by exact Hge.
Qed.

Lemma check_key_not_out_of_fuel bm ms k w :
  (check_key bm ms k w).1 ≠ OutOfFuel.
Proof.
  unfold check_key. rewrite run_bind. destruct (getitem bm k); simpl; [|done].
  rewrite run_bind. destruct (utils.bitwise_xor k ms) as [k'|]; simpl; [|done].
  rewrite run_bind. by destruct (getitem bm k').
Qed.

Lemma check_not_out_of_fuel w : (_check_mask_correct w).1 ≠ OutOfFuel.
Proof.
  unfold _check_mask_correct. rewrite run_bind, run_attr.
  destruct (mask (self w)) as [m|]; [|done].
  rewrite run_bind, run_or_raise_Some, run_bind, run_attr, run_bind.
  generalize (bit_map (self w)).*1 as ks.
  assert (∀ ks, (mapM (check_key (bit_map (self w)) (join_str m)) ks w).1
                ≠ OutOfFuel) as Hks.
  { induction ks as [|k ks IH]; simpl; [done|].
    rewrite run_bind. pose proof (check_key_world (bit_map (self w))
                                    (join_str m) k w) as Hw.
    pose proof (check_key_not_out_of_fuel (bit_map (self w))
                  (join_str m) k w) as Hk.
    destruct (check_key _ _ k w) as [[b|e|] w1]; simpl in *; subst; try done.
    rewrite run_bind.
    by destruct (mapM (M:=M) _ ks w) as [[bs|e|] w1]. }
  intros ks. specialize (Hks ks).
  by destruct (mapM (M:=M) _ ks w) as [[bs|e|] w1].
Qed.

(** X9.  One-bit functions are never sampled.  On a well-formed table of
    1-bit strings, [find_mask] makes no call on the connection, whatever the
    number of iterations allowed; the only mask it can return is [[1]], and
    it returns it exactly when [table[k] == table[k XOR 1]] for every key. *)
Theorem find_mask_one_bit (fuel : nat) (cxn : nat → list Z)
    (bm : list (string * string)) (w : world) :
  wf_table 1 bm →
  cxn_calls (find_mask fuel cxn (PyDict bm) w).2 = cxn_calls w
  ∧ (find_mask fuel cxn (PyDict bm) w).1 ≠ OutOfFuel
  ∧ (∀ r, (find_mask fuel cxn (PyDict bm) w).1 = Return r → r = Some [1])
  ∧ ((find_mask fuel cxn (PyDict bm) w).1 = Return (Some [1])
     ↔ ∀ k, k ∈ bm.*1 → same_value bm "1" k).
Proof.
  intros Hwf.
  destruct (init_attr_ok 1 bm w (le_n 1) Hwf)
    as (w1 & Hinit & Hn1 & _ & _ & Hempty & _ & Hbm & _ & _ & Hcalls).
  rewrite run_find_mask, run_bind, Hinit, run_bind.
  rewrite sample_skip by (rewrite Hempty, Hn1, map_size_empty; lia).
  destruct (invert_orthogonal 1 w1) as (m_prov & m & Hmiss & -> & Hbv & _ & Hone & _).
  { done. }
  { rewrite Hempty. apply basis_inv_empty. }
  { rewrite Hempty, map_size_empty. lia. }
  assert (m = [1]) as ->.
  { destruct Hbv as [Hl _]. destruct m as [|b [|??]]; try done.
    destruct m_prov; [by injection Hone as ->|done]. }
  match goal with |- context [_check_mask_correct ?x] => set (w3 := x) end.
  pose proof (check_true_iff w3 [1] eq_refl) as Hiff.
  pose proof (check_mask_correct_world w3) as Hw.
  pose proof (check_not_out_of_fuel w3) as Hfuel.
  change (bit_map (self w3)) with (bit_map (self w1)) in Hiff.
  rewrite Hbm in Hiff. change (join_str [1]) with "1"%string in Hiff.
  destruct (_check_mask_correct w3) as [[[]|e|] w4]; simpl in Hw, Hiff, Hfuel;
    subst w4; simpl; try done; rewrite <-Hiff; split_and!; try done.
  by intros r [= <-].
Qed.

Lemma find_mask_one_bit_witness :
  cxn_calls (find_mask 5 cxn_001_110
               (PyDict [("0", "1"); ("1", "1")]%string) world0).2
  = cxn_calls world0
  ∧ (find_mask 5 cxn_001_110
       (PyDict [("0", "1"); ("1", "1")]%string) world0).1 ≠ OutOfFuel
  ∧ (∀ r, (find_mask 5 cxn_001_110
             (PyDict [("0", "1"); ("1", "1")]%string) world0).1 = Return r →
          r = Some [1])
  ∧ ((find_mask 5 cxn_001_110
        (PyDict [("0", "1"); ("1", "1")]%string) world0).1 = Return (Some [1])
     ↔ ∀ k, k ∈ [("0", "1"); ("1", "1")]%string.*1 →
         same_value [("0", "1"); ("1", "1")]%string "1" k).
Proof.
  apply (find_mask_one_bit 5 cxn_001_110
           [("0", "1"); ("1", "1")]%string world0).
  split; [discriminate|]. intros k v Hkv.
  repeat (apply elem_of_cons in Hkv as [[= -> ->]|Hkv];
          [split; (split; [reflexivity|simpl; tauto])|]).
  by apply not_elem_of_nil in Hkv.
Defined.

(** ** The outcomes of [find_mask] on a complete truth table *)


Lemma elem_of_keys_getitem (bm : list (string * string)) k :
  k ∈ bm.*1 → ∃ v, (k, v) ∈ bm.
Proof.
  intros ([k' v] & -> & Hin)%list_elem_of_fmap. eauto.
Qed.





(** ** Dictionaries in insertion order *)

Lemma getitem_setitem d k v k' :
  getitem (setitem d k v) k' = if decide (k = k') then Some v else getitem d k'.
Proof.
  induction d as [|[k0 v0] d IH]; simpl.
  - destruct (decide (k = k')); done.
  - destruct (decide (k0 = k)) as [->|Hne]; simpl.
    + destruct (decide (k = k')); done.
    + rewrite IH. destruct (decide (k0 = k')) as [->|]; [|done].
      by rewrite decide_False by done.
Qed.

Lemma elem_of_keys_setitem d k v k' :
  k' ∈ (setitem d k v).*1 ↔ k' = k ∨ k' ∈ d.*1.
Proof.
  induction d as [|[k0 v0] d IH]; simpl.
  - rewrite list_elem_of_singleton. split; [auto|]. intros [?|Hin]; [done|].
    by apply not_elem_of_nil in Hin.
  - destruct (decide (k0 = k)) as [->|Hne]; simpl.
    + rewrite elem_of_cons. tauto.
    + rewrite !elem_of_cons, IH. tauto.
Qed.

Lemma elem_of_setitem d k v k' v' :
  (k', v') ∈ setitem d k v → (k' = k ∧ v' = v) ∨ (k', v') ∈ d.
Proof.
  induction d as [|[k0 v0] d IH]; simpl.
  - intros [= -> ->]%list_elem_of_singleton. auto.
  - destruct (decide (k0 = k)) as [->|Hne].
    + intros [[= -> ->]|Hin]%elem_of_cons; [auto|]. right. by right.
    + intros [[= -> ->]|Hin]%elem_of_cons; [right; left|].
      destruct (IH Hin) as [?|?]; [auto|]. right. by right.
Qed.

Lemma setitem_fresh d k v : k ∉ d.*1 → setitem d k v = d ++ [(k, v)].
Proof.
  induction d as [|[k0 v0] d IH]; simpl; [done|].
  intros Hnotin. apply not_elem_of_cons in Hnotin as [Hne Hnotin].
  rewrite decide_False by done. by rewrite IH.
Qed.

Lemma getitem_elem_of d k v : NoDup d.*1 → (k, v) ∈ d → getitem d k = Some v.
Proof.
  induction d as [|[k0 v0] d IH]; simpl; [by intros _ ?%not_elem_of_nil|].
  intros [Hnotin Hnd]%NoDup_cons [[= -> ->]|Hin]%elem_of_cons.
  - by rewrite decide_True.
  - rewrite decide_False; [by apply IH|]. intros ->. apply Hnotin.
    apply list_elem_of_fmap. by exists (k, v).
Qed.

Lemma getitem_Some_elem_of d k v : getitem d k = Some v → (k, v) ∈ d.
Proof.
  induction d as [|[k0 v0] d IH]; simpl; [done|].
  destruct (decide (k0 = k)) as [->|]; [intros [= ->]; left|].
  intros ?. right. by apply IH.
Qed.

(** ** XOR of bit strings *)

(** XOR with the same mask twice gives the string back. *)
Lemma bitwise_xor_involutive a m b :
  utils.bitwise_xor a m = Some b → utils.bitwise_xor b m = Some a.
Proof.
  revert m b. induction a as [|ca a IH]; intros [|cm m] b; simpl; try done.
  - by intros [= <-].
  - unfold utils.xor_char.
    destruct (decide (ca = "0"%char ∨ ca = "1"%char)) as [Hca|]; [|done].
    destruct (decide (cm = "0"%char ∨ cm = "1"%char)) as [Hcm|]; [|done].
    simpl. destruct (utils.bitwise_xor a m) as [r|] eqn:Hr; [|done].
    simpl. intros [= <-]. simpl. rewrite (IH m r Hr). unfold utils.xor_char.
    destruct Hca as [->| ->], Hcm as [->| ->]; done.
Qed.

(** ** The generators of truth tables *)

(** Every entry written by the loop of [create_periodic_1to1_bitmap] maps a
    key to its XOR with the mask. *)
Lemma periodic_loop_entries mask n idxs : ∀ dct bm,
  periodic_loop mask n idxs dct = Return bm →
  (∀ k v, (k, v) ∈ dct → utils.bitwise_xor k mask = Some v) →
  ∀ k v, (k, v) ∈ bm → utils.bitwise_xor k mask = Some v.
Proof.
  induction idxs as [|idx idxs IH]; intros dct bm; simpl.
  - intros [= <-]. done.
  - destruct (utils.bitwise_xor (binary_repr (N.of_nat idx) n) mask)
      as [x|] eqn:Hx; [|done].
    intros Hrun Hdct. apply (IH _ _ Hrun).
    intros k v [[-> ->]|Hin]%elem_of_setitem; [done|by apply Hdct].
Qed.

(** One pass of the loop of [create_valid_2to1_bitmap] keeps the table
    periodic: both keys of a pair get the same value. *)
Lemma setitem_pair_periodic mask d a b val :
  utils.bitwise_xor a mask = Some b →
  (∀ k, k ∈ d.*1 → same_value d mask k) →
  ∀ k, k ∈ (setitem (setitem d a val) b val).*1 →
       same_value (setitem (setitem d a val) b val) mask k.
Proof.
  intros Hab Hd k Hk.
  pose proof (bitwise_xor_involutive a mask b Hab) as Hba.
  assert (∀ x, getitem (setitem (setitem d a val) b val) x
               = if decide (x = a ∨ x = b) then Some val else getitem d x)
    as Hget.
  { intros x. rewrite !getitem_setitem.
    destruct (decide (b = x)) as [->|Hb].
    - by rewrite decide_True by auto.
    - destruct (decide (a = x)) as [->|Ha].
      + by rewrite decide_True by auto.
      + rewrite decide_False; [done|]. intros [?|?]; congruence. }
  unfold same_value. setoid_rewrite Hget.
  destruct (decide (k = a)) as [->|Hka].
  { exists b, val. rewrite !decide_True by auto. done. }
  destruct (decide (k = b)) as [->|Hkb].
  { exists a, val. rewrite !decide_True by auto. done. }
  rewrite !elem_of_keys_setitem in Hk.
  destruct Hk as [?|[?|Hk]]; [done|done|].
  destruct (Hd k Hk) as (k' & v & Hkk' & Hv & Hv').
  pose proof (bitwise_xor_involutive k mask k' Hkk') as Hk'k.
  exists k', v. split; [done|].
  rewrite decide_False by (intros [?|?]; done).
  rewrite decide_False; [done|].
  intros [->| ->]; congruence.
Qed.

Lemma valid_loop_periodic mask tups vals cnts : ∀ dct res,
  (∀ k v, (k, v) ∈ tups → utils.bitwise_xor k mask = Some v) →
  valid_loop tups vals cnts dct = Return res →
  (∀ k, k ∈ dct.*1 → same_value dct mask k) →
  (∀ k v, (k, v) ∈ dct → v ∈ vals) →
  (∀ k, k ∈ res.*1 → same_value res mask k)
  ∧ (∀ k v, (k, v) ∈ res → v ∈ vals).
Proof.
  induction cnts as [|cnt cnts IH]; intros dct res Htups; simpl.
  - intros [= <-]. done.
  - destruct (tups !! cnt) as [[a b]|] eqn:Ht; [|done].
    destruct (vals !! cnt) as [val|] eqn:Hv; [|done].
    intros Hrun Hper Hvals. apply (IH _ _ Htups Hrun).
    + apply setitem_pair_periodic; [|done].
      apply Htups. by eapply list_elem_of_lookup_2.
    + intros k v [[_ ->]|[[_ ->]|Hin]%elem_of_setitem]%elem_of_setitem.
      * by eapply list_elem_of_lookup_2.
      * by eapply list_elem_of_lookup_2.
      * eapply Hvals. exact Hin.
Qed.

(** X11.  The table that [create_valid_2to1_bitmap] returns passes the
    validator's comparison for the mask it was built from: for every key [k]
    of the result, [k XOR mask] is a key too and both have the same value;
    and every value of the result is one of the randomly drawn ones.  This
    holds for any outcome of the random draw.  ([utils.bitwise_xor] is
    modelled from the spec.) *)
Theorem create_valid_2to1_bitmap_periodic
    (rd_choice : list string → nat → list string) (mask : string)
    (dct : list (string * string)) :
  create_valid_2to1_bitmap rd_choice mask = Return dct →
  (∀ k, k ∈ dct.*1 → same_value dct mask k)
  ∧ ∃ bm, create_periodic_1to1_bitmap mask = Return bm
          ∧ ∀ k v, (k, v) ∈ dct →
              v ∈ rd_choice bm.*1 (length bm.*1 / 2)%nat.
Proof.
  unfold create_valid_2to1_bitmap.
  destruct (create_periodic_1to1_bitmap mask) as [bm|e|] eqn:Hbm; [|done..].
  cbv zeta. intros Hrun.
  destruct (valid_loop_periodic mask (merge_sort str_key_le bm)
              (rd_choice bm.*1 (length bm.*1 / 2)%nat)
              (seq 0 (length bm.*1 / 2)) [] dct) as [Hper Hvals].
  - intros k v Hkv. rewrite merge_sort_Permutation in Hkv.
    apply (periodic_loop_entries mask _ _ [] bm Hbm); [|done].
    intros ?? Hin. by apply not_elem_of_nil in Hin.
  - done.
  - intros ? Hin. by apply not_elem_of_nil in Hin.
  - intros ?? Hin. by apply not_elem_of_nil in Hin.
  - split; [done|]. by exists bm.
Qed.

Lemma create_valid_2to1_bitmap_periodic_witness :
  (∀ k, k ∈ [("000", "000"); ("110", "000"); ("001", "001"); ("111", "001");
             ("010", "010"); ("100", "010"); ("011", "011");
             ("101", "011")]%string.*1 →
     same_value [("000", "000"); ("110", "000"); ("001", "001");
                 ("111", "001"); ("010", "010"); ("100", "010");
                 ("011", "011"); ("101", "011")]%string "110" k)
  ∧ ∃ bm, create_periodic_1to1_bitmap "110" = Return bm
          ∧ ∀ k v, (k, v) ∈ [("000", "000"); ("110", "000"); ("001", "001");
                             ("111", "001"); ("010", "010"); ("100", "010");
                             ("011", "011"); ("101", "011")]%string →
              v ∈ (λ (ks : list string) n, take n ks) bm.*1
                    (length bm.*1 / 2)%nat.
Proof.
  apply (create_valid_2to1_bitmap_periodic (λ ks n, take n ks) "110").
  vm_compute. reflexivity.
Defined.

(** ** Binary representations *)

Lemma int2_go_bin_pos p : ∀ t a,
  int2_go a (bin_pos p t)
  = int2_go (a * 2 ^ N.of_nat (Pos.size_nat p) + Npos p)%N t.
Proof.
  induction p as [p IH|p IH|]; intros t a; simpl bin_pos.
  - rewrite IH. cbn [int2_go]. rewrite decide_False by done.
    rewrite decide_True by done. f_equal.
    cbn [Pos.size_nat]. rewrite Nat2N.inj_succ, N.pow_succ_r'. lia.
  - rewrite IH. cbn [int2_go]. rewrite decide_True by done. f_equal.
    cbn [Pos.size_nat]. rewrite Nat2N.inj_succ, N.pow_succ_r'. lia.
  - cbn [int2_go]. rewrite decide_False by done.
    rewrite decide_True by done. f_equal. simpl. lia.
Qed.

Lemma int2_go_zeros k s a :
  int2_go a (zeros_str k +:+ s) = int2_go (a * 2 ^ N.of_nat k)%N s.
Proof.
  revert a. induction k as [|k IH]; intros a.
  - simpl. f_equal. lia.
  - change (zeros_str (S k) +:+ s) with (String "0" (zeros_str k +:+ s)).
    cbn [int2_go]. rewrite decide_True by done.
    rewrite IH. f_equal. rewrite Nat2N.inj_succ, N.pow_succ_r'. lia.
Qed.

Lemma int2_nonempty s :
  (1 ≤ String.length s)%nat → int2 s = int2_go 0%N s.
Proof. destruct s; simpl; [lia|done]. Qed.

(** [int(np.binary_repr(b, n), 2) == b] *)
Lemma int2_binary_repr b n : int2 (binary_repr b n) = Some b.
Proof.
  unfold binary_repr.
  set (s := match b with N0 => "0"%string | Npos p => bin_pos p EmptyString end).
  assert ((1 ≤ String.length s)%nat ∧ int2_go 0%N s = Some b) as [Hl Hs].
  { unfold s. destruct b as [|p]; [done|]. split.
    - rewrite bin_pos_length. destruct p; simpl; lia.
    - rewrite int2_go_bin_pos. simpl. f_equal. }
  rewrite int2_nonempty by (rewrite length_append_str; lia).
  by rewrite int2_go_zeros.
Qed.

Lemma int2_go_inj s : ∀ s' a,
  is_bits s → is_bits s' → String.length s = String.length s' →
  int2_go a s = int2_go a s' → s = s'.
Proof.
  induction s as [|c s IH]; intros [|c' s'] a; simpl; try done.
  intros [Hc Hs] [Hc' Hs'] [= Hlen].
  destruct (int2_go_bits s Hs) as (v & Hv & Hgo).
  destruct (int2_go_bits s' Hs') as (v' & Hv' & Hgo').
  rewrite <-Hlen in Hv', Hgo'.
  destruct Hc as [->| ->], Hc' as [->| ->];
    repeat (rewrite ?decide_True by done; rewrite ?decide_False by done).
  - intros Heq. f_equal. by apply (IH s' (2 * a)%N).
  - rewrite Hgo, Hgo'. intros [= Heq]. exfalso.
    revert Hv Hv' Heq. generalize (2 ^ N.of_nat (String.length s))%N. nia.
  - rewrite Hgo, Hgo'. intros [= Heq]. exfalso.
    revert Hv Hv' Heq. generalize (2 ^ N.of_nat (String.length s))%N. nia.
  - intros Heq. f_equal. by apply (IH s' (2 * a + 1)%N).
Qed.

(** Every bit string of length [n] is the binary representation of a number
    below [2 ** n]. *)
Lemma bitstring_binary_repr n k :
  (1 ≤ n)%nat → bitstring n k →
  ∃ idx, (idx < 2 ^ n)%nat ∧ k = binary_repr (N.of_nat idx) n.
Proof.
  intros Hn Hk. destruct (int2_bitstring n k Hn Hk) as (i & Hi & Hlt).
  pose proof (Nat2N.inj_pow 2 n) as Hpow. simpl in Hpow.
  exists (N.to_nat i). split; [lia|]. rewrite N2Nat.id.
  assert (bitstring n (binary_repr i n)) as Hr
    by (by apply binary_repr_bitstring).
  pose proof (int2_binary_repr i n) as Hi'.
  rewrite int2_nonempty in Hi, Hi' by (destruct Hk, Hr; lia).
  apply (int2_go_inj k _ 0%N); [apply Hk|apply Hr|destruct Hk, Hr; lia|].
  congruence.
Qed.

Lemma binary_repr_inj n b b' : binary_repr b n = binary_repr b' n → b = b'.
Proof.
  intros Heq. pose proof (int2_binary_repr b n) as Hb.
  rewrite Heq, int2_binary_repr in Hb. by injection Hb.
Qed.

(** The loop of [create_periodic_1to1_bitmap] on a bit-string mask: one new
    key per index. *)
Lemma periodic_loop_run n mask :
  (1 ≤ n)%nat → bitstring n mask →
  ∀ len j dct,
    (j + len ≤ 2 ^ n)%nat →
    dct.*1 = (λ idx, binary_repr (N.of_nat idx) n) <$> seq 0 j →
    ∃ bm, periodic_loop mask n (seq j len) dct = Return bm
          ∧ bm.*1 = (λ idx, binary_repr (N.of_nat idx) n) <$> seq 0 (j + len).
Proof.
  intros Hn Hmask. pose proof (Nat2N.inj_pow 2 n) as Hpow. simpl in Hpow.
  induction len as [|len IH]; intros j dct Hle Hkeys.
  - exists dct. by rewrite Nat.add_0_r.
  - cbn [seq periodic_loop].
    assert (bitstring n (binary_repr (N.of_nat j) n)) as Hkey
      by (apply binary_repr_bitstring; [done|lia]).
    destruct (bitwise_xor_bitstring n _ mask Hkey Hmask) as (x & -> & _).
    destruct (IH (S j) (setitem dct (binary_repr (N.of_nat j) n) x))
      as (bm & Hrun & Hbm); [lia| |].
    + rewrite setitem_fresh.
      * by rewrite fmap_app, Hkeys, seq_S, fmap_app.
      * rewrite Hkeys. intros (i & Heq & Hi%elem_of_seq)%list_elem_of_fmap.
        apply binary_repr_inj in Heq. lia.
    + exists bm. split; [done|]. rewrite Hbm. f_equal. f_equal. lia.
Qed.

Lemma create_periodic_1to1_bitmap_ok n mask :
  (1 ≤ n)%nat → bitstring n mask →
  ∃ bm, create_periodic_1to1_bitmap mask = Return bm
        ∧ bm.*1 = (λ idx, binary_repr (N.of_nat idx) n) <$> seq 0 (2 ^ n)
        ∧ NoDup bm.*1
        ∧ ∀ k v, getitem bm k = Some v
                 ↔ bitstring n k ∧ utils.bitwise_xor k mask = Some v.
Proof.
  intros Hn Hmask. pose proof (Nat2N.inj_pow 2 n) as Hpow. simpl in Hpow.
  destruct (periodic_loop_run n mask Hn Hmask (2 ^ n) 0 [])
    as (bm & Hrun & Hkeys); [lia|done|].
  simpl in Hkeys.
  assert (NoDup bm.*1) as Hnd.
  { rewrite Hkeys. apply NoDup_fmap_2_strong; [|apply NoDup_seq].
    intros i j _ _ Heq. apply binary_repr_inj in Heq. lia. }
  assert (∀ k v, (k, v) ∈ bm → utils.bitwise_xor k mask = Some v) as Hent.
  { apply (periodic_loop_entries mask n (seq 0 (2 ^ n)) [] bm Hrun).
    intros ?? Hin. by apply not_elem_of_nil in Hin. }
  exists bm. split_and!; try done.
  - unfold create_periodic_1to1_bitmap. destruct Hmask as [-> _]. exact Hrun.
  - intros k v. split.
    + intros Hkv%getitem_Some_elem_of. split; [|by apply Hent].
      assert (k ∈ bm.*1) as Hk
        by (apply list_elem_of_fmap; by exists (k, v)).
      rewrite Hkeys in Hk.
      apply list_elem_of_fmap in Hk as (i & -> & Hi%elem_of_seq).
      apply binary_repr_bitstring; [done|lia].
    + intros [Hk Hx].
      destruct (bitstring_binary_repr n k Hn Hk) as (i & Hi & ->).
      assert (binary_repr (N.of_nat i) n ∈ bm.*1) as Hin.
      { rewrite Hkeys. apply list_elem_of_fmap. exists i. split; [done|].
        apply elem_of_seq. lia. }
      apply elem_of_keys_getitem in Hin as [v' Hv'].
      pose proof (Hent _ _ Hv') as Hx'. rewrite Hx in Hx'. injection Hx' as <-.
      by apply getitem_elem_of.
Qed.

(** X12.  [create_periodic_1to1_bitmap] on a mask that is a bit string of
    length [n >= 1] returns a table with exactly [2^n] distinct keys, in
    increasing numeric order; the keys are all the bit strings of length
    [n], each mapped to its XOR with the mask, so that the table is a
    complete truth table; and the table is an involution ([dct[dct[k]] ==
    k]).  ([utils.bitwise_xor] is modelled from the spec.) *)
Theorem create_periodic_1to1_bitmap_spec (n : nat) (mask : string) :
  (1 ≤ n)%nat → bitstring n mask →
  ∃ bm, create_periodic_1to1_bitmap mask = Return bm
        ∧ bm.*1 = (λ idx, binary_repr (N.of_nat idx) n) <$> seq 0 (2 ^ n)
        ∧ length bm = (2 ^ n)%nat
        ∧ NoDup bm.*1
        ∧ (∀ k v, getitem bm k = Some v
                  ↔ bitstring n k ∧ utils.bitwise_xor k mask = Some v)
        ∧ complete_table n bm
        ∧ (∀ k v, getitem bm k = Some v → getitem bm v = Some k).
Proof.
  intros Hn Hmask.
  destruct (create_periodic_1to1_bitmap_ok n mask Hn Hmask)
    as (bm & Hrun & Hkeys & Hnd & Hget).
  assert (length bm = (2 ^ n)%nat) as Hlen.
  { rewrite <-(length_fmap fst), Hkeys, length_fmap. apply length_seq. }
  exists bm. split_and!; try done.
  - split; [split|].
    + intros ->. simpl in Hlen. pose proof (Nat.pow_nonzero 2 n). lia.
    + intros k v Hkv. apply getitem_elem_of in Hkv; [|done].
      apply Hget in Hkv as [Hk Hx]. split; [done|].
      destruct (bitwise_xor_bitstring n k mask Hk Hmask) as (c & Hc & Hcb).
      congruence.
    + intros k Hk.
      destruct (bitwise_xor_bitstring n k mask Hk Hmask) as (c & Hc & _).
      exists c. by apply Hget.
  - intros k v [Hk Hx]%Hget. apply Hget. split.
    + destruct (bitwise_xor_bitstring n k mask Hk Hmask) as (c & Hc & Hcb).
      congruence.
    + by apply bitwise_xor_involutive.
Qed.

Lemma create_periodic_1to1_bitmap_spec_witness :
  ∃ bm, create_periodic_1to1_bitmap "10" = Return bm
        ∧ bm.*1 = (λ idx, binary_repr (N.of_nat idx) 2) <$> seq 0 (2 ^ 2)
        ∧ length bm = (2 ^ 2)%nat
        ∧ NoDup bm.*1
        ∧ (∀ k v, getitem bm k = Some v
                  ↔ bitstring 2 k ∧ utils.bitwise_xor k "10" = Some v)
        ∧ complete_table 2 bm
        ∧ (∀ k v, getitem bm k = Some v → getitem bm v = Some k).
Proof.
  apply (create_periodic_1to1_bitmap_spec 2 "10").
  - lia.
  - split; [reflexivity|simpl; tauto].
Defined.

(** X13.  The solution found by back substitution is the only one.  For the
    matrix [W] that the completion step produces from a basis of [n - 1]
    vectors satisfying the invariant, every bit vector [x] of length [n] with
    [W · x = t] over GF(2) is the vector that the solver returns for [t].
    ([utils.binary_back_substitute] is modelled from the spec.) *)
Theorem solver_unique (n : nat) (w : world) (t x : list Z) :
  n_qubits (self w) = n → basis_inv n (basis_of w) →
  Z.of_nat (size (basis_of w)) = Z.of_nat n - 1 → bitvec n x →
  ∃ missing_prov w',
    _add_missing_provenance_vector w = (Return missing_prov, w')
    ∧ (mat_vec (sorted_rows (basis_of w')) x = t →
       x = utils.binary_back_substitute (sorted_rows (basis_of w')) t).
Proof.
  intros Hn Hinv Hsz Hx.
  destruct (complete_basis n w Hn Hinv Hsz)
    as (m & _ & _ & _ & Hrun & Hinv' & Hdom).
  eexists _, _. split; [exact Hrun|]. rewrite basis_of_with_dict.
  apply (binary_back_substitute_unique n); [|done|].
  - by apply sorted_rows_length.
  - intros j row. rewrite (sorted_rows_lookup n) by done. apply Hinv'.
Qed.

Lemma solver_unique_witness :
  ∃ missing_prov w',
    _add_missing_provenance_vector (st_110 (basis_110 true true) 2)
    = (Return missing_prov, w')
    ∧ (mat_vec (sorted_rows (basis_of w')) [1; 1; 0] = [0; 1; 0] →
       [1; 1; 0]
       = utils.binary_back_substitute (sorted_rows (basis_of w')) [0; 1; 0]).
Proof.
  apply (solver_unique 3 (st_110 (basis_110 true true) 2) [0; 1; 0] [1; 1; 0]).
  - reflexivity.
  - apply basis_inv_110.
  - reflexivity.
  - split; [reflexivity|]. repeat constructor; (by left) || (by right).
Defined.
